(** * Monte Carlo estimation of pi: the notebook's sampler and reducer

    A shallow embedding of [montecarlo/pi_estimation/pi_estimation.ipynb]:
    the class [EstimatePI] (methods [predicate], [randomize_points] and
    [process_in_circle_points]) and the driver cell's [iterdata].

    Python's [float] is an IEEE-754 binary64 number.  It is modelled by the
    Standard Library's [spec_float] with [prec = 53] and [emax = 1024], so
    every rounding of the notebook's arithmetic is the one a double makes.
    Python's unbounded [int] is [Z]. *)

From Stdlib Require Import Ascii String DecimalString DecimalZ DecimalPos.
From Stdlib Require Import ZArith List Bool Lia Permutation.
From Stdlib Require Import SpecFloat.
Import ListNotations.

Local Open Scope Z_scope.

(** ** Python numbers *)

Module Py.

Definition float := spec_float.

Definition prec : Z := 53.
Definition emax : Z := 1024.

Definition fadd : float -> float -> float := SFadd prec emax.
Definition fmul : float -> float -> float := SFmul prec emax.
Definition fdiv : float -> float -> float := SFdiv prec emax.
Definition fle : float -> float -> bool := SFleb.

Inductive exn := ZeroDivisionError | OverflowError | TypeError.

Inductive result (A : Type) :=
| Ok (a : A)
| Raise (e : exn).
Arguments Ok {A} a.
Arguments Raise {A} e.

Definition bind {A B} (r : result A) (k : A -> result B) : result B :=
  match r with
  | Ok a => k a
  | Raise e => Raise e
  end.

(** The values the notebook's two methods handle. *)
Inductive value :=
| VNone
| VBool (b : bool)
| VInt (n : Z)
| VFloat (x : float).

Definition is_infinity (x : float) : bool :=
  match x with
  | S754_infinity _ => true
  | _ => false
  end.

Definition is_zero (x : float) : bool :=
  match x with
  | S754_zero _ => true
  | _ => false
  end.

(** An [int] as the exact, unrounded binary number [n * 2^0]. *)
Definition exact_of_int (n : Z) : float :=
  match n with
  | Z0 => S754_zero false
  | Zpos p => S754_finite false p 0
  | Zneg p => S754_finite true p 0
  end.

(** The double nearest to [n * 2^g], ties to even. *)
Definition dyadic (n g : Z) : float := binary_normalize prec emax n g false.

(** [int] to [float]: round to nearest, ties to even; an int beyond the
    range of a double raises [OverflowError]. *)
Definition float_of_int (n : Z) : result float :=
  let x := dyadic n 0 in
  if is_infinity x then Raise OverflowError else Ok x.

(** [a / b] on ints: the correctly rounded quotient of the two exact
    integers, [ZeroDivisionError] for a zero divisor, [OverflowError]
    when the quotient is too large for a double. *)
Definition int_truediv (a b : Z) : result float :=
  if b =? 0 then Raise ZeroDivisionError
  else
    let q := fdiv (exact_of_int a) (exact_of_int b) in
    if is_infinity q then Raise OverflowError else Ok q.

(** [x / y] on floats. *)
Definition float_truediv (x y : float) : result float :=
  if is_zero y then Raise ZeroDivisionError else Ok (fdiv x y).

(** The numeric tower: a [bool] is an [int]; an [int] meeting a [float] is
    converted first. *)
Inductive number :=
| NInt (n : Z)
| NFloat (x : float).

Definition as_number (v : value) : result number :=
  match v with
  | VNone => Raise TypeError
  | VBool b => Ok (NInt (Z.b2z b))
  | VInt n => Ok (NInt n)
  | VFloat x => Ok (NFloat x)
  end.

Definition as_float (n : number) : result float :=
  match n with
  | NInt n => float_of_int n
  | NFloat x => Ok x
  end.

Definition binop (fint : Z -> Z -> result value)
                 (ffloat : float -> float -> result value)
                 (v w : value) : result value :=
  bind (as_number v) (fun a =>
  bind (as_number w) (fun b =>
  match a, b with
  | NInt m, NInt n => fint m n
  | _, _ =>
      bind (as_float a) (fun x =>
      bind (as_float b) (fun y => ffloat x y))
  end)).

(** [v + w] *)
Definition add : value -> value -> result value :=
  binop (fun m n => Ok (VInt (m + n)))
        (fun x y => Ok (VFloat (fadd x y))).

(** [v * w] *)
Definition mul : value -> value -> result value :=
  binop (fun m n => Ok (VInt (m * n)))
        (fun x y => Ok (VFloat (fmul x y))).

(** [v / w] *)
Definition truediv : value -> value -> result value :=
  binop (fun m n => bind (int_truediv m n) (fun q => Ok (VFloat q)))
        (fun x y => bind (float_truediv x y) (fun q => Ok (VFloat q))).

(** [float(v)] *)
Definition to_float (v : value) : result value :=
  bind (as_number v) (fun a =>
  bind (as_float a) (fun x => Ok (VFloat x))).

(** The doubles [0.0], [1.0], [2.0] and [4.0]. *)
Definition zero : float := S754_zero false.
Definition one : float := dyadic 1 0.
Definition two : float := dyadic 2 0.
Definition four : float := dyadic 4 0.

(** *** Formatting an int with thousands separators *)

Definition is_comma (c : ascii) : bool := Ascii.eqb c ",".

(** Digits, least significant first, with a comma after every third one
    that has a successor; [k] counts the digits since the last comma. *)
Fixpoint group_digits (ds : list ascii) (k : nat) : list ascii :=
  match ds with
  | [] => []
  | d :: rest =>
      match k with
      | 3%nat => ","%char :: d :: group_digits rest 1
      | _ => d :: group_digits rest (S k)
      end
  end.

Definition thousands (digits : string) : string :=
  string_of_list_ascii
    (rev (group_digits (rev (list_ascii_of_string digits)) 0)).

(** [format(n, ",")] for an int, the conversion [{:,}] of [str.format]: the
    sign, then the decimal digits in groups of three counted from the
    right. *)
Definition format_comma (n : Z) : string :=
  match Z.to_int n with
  | Decimal.Pos u => thousands (NilZero.string_of_uint u)
  | Decimal.Neg u => String "-" (thousands (NilZero.string_of_uint u))
  end.

(** *** The random module

    The generator is a tape of the doubles that successive calls of
    [random()] return, together with the position of the next one. *)
Record rng := { tape : nat -> float; cursor : nat }.

(** Computations that draw random numbers and may raise. *)
Definition M (A : Type) := rng -> result A * rng.

Definition ret {A} (a : A) : M A := fun g => (Ok a, g).

Definition mbind {A B} (m : M A) (k : A -> M B) : M B :=
  fun g =>
    match m g with
    | (Ok a, g') => k a g'
    | (Raise e, g') => (Raise e, g')
    end.

Definition lift {A} (r : result A) : M A := fun g => (r, g).

(** [random()] *)
Definition random : M float :=
  fun g => (Ok (tape g (cursor g)),
            {| tape := tape g; cursor := S (cursor g) |}).

End Py.

Import Py.

Declare Scope py_scope.
Delimit Scope py_scope with py.
Notation "x <- e ;; k" := (bind e (fun x => k))
  (at level 61, e at next level, right associativity) : py_scope.
Notation "x <~ e ;; k" := (mbind e (fun x => k))
  (at level 61, e at next level, right associativity) : py_scope.
Local Open Scope py_scope.

(** ** The class [EstimatePI] *)

Module EstimatePI.
Section Class.

(** [x ** y] on floats is the C library's [pow]. *)
Variable pow : float -> float -> float.

(** The module-level [MAP_INSTANCES]; the notebook sets it to 100. *)
Variable MAP_INSTANCES : Z.

(** The class attribute [randomize_per_map]; the notebook sets it to
    10000000. *)
Variable randomize_per_map : Z.

(** An object of the class: [__init__] gives it one attribute. *)
Record instance := { total_randomize_points : Z }.

Definition __init__ : instance :=
  {| total_randomize_points := MAP_INSTANCES * randomize_per_map |}.

Definition __str__ (self : instance) : string :=
  ("Total Randomize Points: "
   ++ format_comma (randomize_per_map * MAP_INSTANCES))%string.

(** [(x ** 2) + (y ** 2) <= 1] *)
Definition in_circle_test (x y : float) : bool :=
  fle (fadd (pow x two) (pow y two)) one.

Definition predicate : M bool :=
  x <~ random ;;
  y <~ random ;;
  ret (in_circle_test x y).

(** [for _ in range(n): in_circle += self.predicate()] *)
Fixpoint randomize_loop (n : nat) (in_circle : Z) : M Z :=
  match n with
  | O => ret in_circle
  | S n' =>
      b <~ predicate ;;
      randomize_loop n' (in_circle + Z.b2z b)
  end.

Definition randomize_points (data : value) : M value :=
  in_circle <~ randomize_loop (Z.to_nat randomize_per_map) 0 ;;
  lift (q <- truediv (VInt in_circle) (VInt randomize_per_map) ;;
        to_float q).

(** [for map_result in results: in_circle_percent += map_result] *)
Fixpoint sum_loop (in_circle_percent : value) (results : list value)
  : result value :=
  match results with
  | [] => Ok in_circle_percent
  | map_result :: rest =>
      acc <- add in_circle_percent map_result ;;
      sum_loop acc rest
  end.

Definition process_in_circle_points (results : list value) : result value :=
  in_circle_percent <- sum_loop (VInt 0) results ;;
  q <- truediv in_circle_percent (VInt MAP_INSTANCES) ;;
  p <- mul (VInt 4) q ;;
  to_float p.

(** The driver cell's [iterdata = [0] * MAP_INSTANCES]. *)
Definition iterdata : list value := repeat (VInt 0) (Z.to_nat MAP_INSTANCES).

End Class.
End EstimatePI.

Import EstimatePI.

(** The values the notebook gives its two parameters. *)
Module Notebook.
Definition MAP_INSTANCES : Z := 100.
Definition randomize_per_map : Z := 10000000.
End Notebook.

(** ** What the specification says, in its own words *)

(** The [i]-th pair of numbers a sampler run draws from the generator. *)
Definition drawn_pair (g : rng) (i : nat) : float * float :=
  (tape g (cursor g + 2 * i), tape g (cursor g + 2 * i + 1)).

(** The [T] pairs of one run. *)
Definition drawn_pairs (g : rng) (T : nat) : list (float * float) :=
  map (drawn_pair g) (seq 0 T).

(** How many of the pairs satisfy [x^2 + y^2 <= 1]. *)
Definition count_in_circle (pow : float -> float -> float)
                           (pairs : list (float * float)) : Z :=
  Z.of_nat (length (filter (fun p => in_circle_test pow (fst p) (snd p)) pairs)).

(** The test of the specification, [x^2 + y^2 <= 1] on floats, for a
    squaring function [sq]. *)
Definition on_unit_disc (sq : float -> float) (p : float * float) : bool :=
  fle (fadd (sq (fst p)) (sq (snd p))) one.

(** How many pairs of a list pass a test. *)
Definition count_satisfying (test : float * float -> bool)
                            (pairs : list (float * float)) : Z :=
  Z.of_nat (length (filter test pairs)).

(** The sum [x1 + ... + xn] of a sequence of floats, left to right. *)
Definition float_sum (xs : list float) : float := fold_left fadd xs zero.

(** The arithmetic mean of a sequence of floats, times 4. *)
Definition mean_times_four (xs : list float) : result float :=
  n <- float_of_int (Z.of_nat (length xs)) ;;
  mean <- float_truediv (float_sum xs) n ;;
  Ok (fmul four mean).

(** A well-formed double in the closed interval from [lo] to [hi]. *)
Definition in_interval (lo hi x : float) : Prop :=
  valid_binary prec emax x = true /\ fle lo x = true /\ fle x hi = true.

(** Reading a grouped numeral back: drop the commas, read the decimal. *)
Definition remove_commas (s : string) : string :=
  string_of_list_ascii
    (filter (fun c => negb (is_comma c)) (list_ascii_of_string s)).

Definition int_of_grouped (s : string) : option Z :=
  option_map Z.of_int (NilZero.int_of_string (remove_commas s)).

(** ** Rounding: auxiliary notions *)

(** 1 when a location says that part of the value was cut off. *)
Definition inexact (l : location) : Z :=
  match l with
  | loc_Exact => 0
  | loc_Inexact _ => 1
  end.

Definition rec_inexact (mrs : shr_record) : Z :=
  inexact (loc_of_shr_record mrs).

(** [r] is a non-negative finite float of value at most [mB * 2^eB]. *)
Definition below (r : float) (mB : positive) (eB : Z) : Prop :=
  r = S754_zero false \/
  exists m e, r = S754_finite false m e /\ e <= eB /\
              Zpos m <= Zpos mB * 2 ^ (eB - e).

(** [r] is a non-negative finite float of value at most the integer [k]. *)
Definition below_int (r : float) (k : Z) : Prop :=
  r = S754_zero false \/
  exists m e, r = S754_finite false m e /\ e <= 0 /\ Zpos m <= k * 2 ^ (- e).

(** The sum of a list of integers. *)
Definition total (ns : list Z) : Z := fold_right Z.add 0 ns.

(** The partial fractions [n * 2^g], one for each [n] of a list. *)
Definition dyadics (g : Z) (ns : list Z) : list float :=
  map (fun n => dyadic n g) ns.

(** ** Concrete inputs *)

(** The double nearest to the quotient [n/d] of two integers; also the
    decimal literal [n/d] as Python reads it. *)
Definition ratio (n d : Z) : float := fdiv (exact_of_int n) (exact_of_int d).

(** A stand-in for the C library's [pow] at the exponent 2. *)
Definition square (x _ : float) : float := fmul x x.

(** A generator that returns 0.5 for ever. *)
Definition halves : rng := {| tape := fun _ => ratio 1 2; cursor := 0 |}.

(** The float [1e307]. *)
Definition huge : float := ratio (10 ^ 307) 1.

(** One hundred partial results, and the same in another order. *)
Definition fractions_a : list float :=
  ratio 1 10 :: ratio 2 10 :: ratio 3 10 :: repeat zero 97.
Definition fractions_b : list float :=
  ratio 3 10 :: ratio 2 10 :: ratio 1 10 :: repeat zero 97.


(** ** The driver cell *)

(** What the notebook relies on from the execution service's [map_reduce]:
    the map function runs once for each element of the input list, task
    [i] on a generator [gen i] of its own, and the list of the results, in
    input order, goes to the reduce function; an exception in a task is
    the exception of the whole job. *)
Fixpoint map_tasks (f : value -> M value) (gen : nat -> rng) (i : nat)
                   (iterdata : list value) : result (list value) :=
  match iterdata with
  | [] => Ok []
  | data :: rest =>
      r <- fst (f data (gen i)) ;;
      rs <- map_tasks f gen (S i) rest ;;
      Ok (r :: rs)
  end.

Definition map_reduce (map_function : value -> M value)
                      (iterdata : list value)
                      (reduce_function : list value -> result value)
                      (gen : nat -> rng) : result value :=
  results <- map_tasks map_function gen 0 iterdata ;;
  reduce_function results.

(** The driver cell: [pw.map_reduce(est_pi.randomize_points, iterdata,
    est_pi.process_in_circle_points)] followed by [pw.get_result()]. *)
Definition get_result (pow : float -> float -> float)
                      (MAP_INSTANCES randomize_per_map : Z)
                      (gen : nat -> rng) : result value :=
  map_reduce (randomize_points pow randomize_per_map)
             (iterdata MAP_INSTANCES)
             (process_in_circle_points MAP_INSTANCES)
             gen.

(** The fraction task [i] reports. *)
Definition task_fraction (pow : float -> float -> float) (T : Z)
                         (gen : nat -> rng) (i : nat) : float :=
  ratio (count_in_circle pow (drawn_pairs (gen i) (Z.to_nat T))) T.

(** How many random numbers one call of the sampler takes from [g]. *)
Definition numbers_drawn (pow : float -> float -> float) (T : Z)
                         (data : value) (g : rng) : nat :=
  cursor (snd (randomize_points pow T data g)) - cursor g.

(** How many random numbers the tasks of one job take, all together. *)
Definition job_numbers_drawn (pow : float -> float -> float) (N T : Z)
                             (gen : nat -> rng) : nat :=
  list_sum (map (fun i => numbers_drawn pow T (nth i (iterdata N) VNone) (gen i))
                (seq 0 (List.length (iterdata N)))).

(** A float that is a zero or a positive number of value at most 1. *)
Definition fraction_value (x : float) : Prop :=
  is_zero x = true \/
  exists m e, x = S754_finite false m e /\ e <= -52 /\ Zpos m <= 2 ^ (- e).


(** ** Rounding from below, and bounds on a common scale *)

(** [r] is a non-negative float of value at least [mB * 2^eB]. *)
Definition above (r : float) (mB : positive) (eB : Z) : Prop :=
  r = S754_infinity false \/
  exists m e, r = S754_finite false m e /\ eB <= e /\
              Zpos mB <= Zpos m * 2 ^ (e - eB).

(** [r] is a zero or a positive float of value at most [X * 2^g]. *)
Definition at_most (r : float) (X g : Z) : Prop :=
  r = S754_zero false \/
  exists m e, r = S754_finite false m e /\ e <= g /\ Zpos m <= X * 2 ^ (g - e).

(** [r] is a positive float of value at least [X * 2^g]. *)
Definition at_least (r : float) (X g : Z) : Prop :=
  exists m e, r = S754_finite false m e /\ e <= g /\ X * 2 ^ (g - e) <= Zpos m.

(** Four times the float [m * 2^e] with its last [b] bits cleared, and
    four times the next float of that coarser grid: they enclose
    [4 * m * 2^e] and are [2^b] units of its last place apart. *)
Definition quadruple_below (b : Z) (m : positive) (e : Z) : float :=
  dyadic (Zpos m / 2 ^ b) (e + b + 2).
Definition quadruple_above (b : Z) (m : positive) (e : Z) : float :=
  dyadic (Zpos m / 2 ^ b + 1) (e + b + 2).

(** ** Binary64 rounding

    Facts about the Standard Library's [binary_round_aux], by which every
    float operation rounds: it never crosses a representable number, and
    it leaves a representable number alone. *)

Lemma digits2_pos_log2 (p : positive) :
  Zpos (digits2_pos p) = Z.log2 (Zpos p) + 1.
Proof.
  induction p as [p IH | p IH |]; cbn [digits2_pos]; try reflexivity.
  - rewrite Pos2Z.inj_succ, IH.
    change (Zpos p~1) with (2 * Zpos p + 1).
    rewrite Z.log2_succ_double by lia. lia.
  - rewrite Pos2Z.inj_succ, IH.
    change (Zpos p~0) with (2 * Zpos p).
    rewrite Z.log2_double by lia. lia.
Qed.

Lemma Zdigits2_log2 (m : Z) : 0 < m -> Zdigits2 m = Z.log2 m + 1.
Proof. destruct m; try lia. intros _. apply digits2_pos_log2. Qed.

Lemma Zdigits2_nonneg (m : Z) : 0 <= Zdigits2 m.
Proof. destruct m; cbn; lia. Qed.

Lemma Zdigits2_le (a b : Z) : 0 <= a -> a <= b -> Zdigits2 a <= Zdigits2 b.
Proof.
  intros Ha Hab.
  destruct (Z.eq_dec a 0) as [-> | Hne].
  - apply Zdigits2_nonneg.
  - rewrite !Zdigits2_log2 by lia.
    pose proof (Z.log2_le_mono a b Hab). lia.
Qed.

Lemma Zdigits2_shift (a k : Z) :
  0 < a -> 0 <= k -> Zdigits2 (a * 2 ^ k) = Zdigits2 a + k.
Proof.
  intros Ha Hk.
  assert (0 < 2 ^ k) by (apply Z.pow_pos_nonneg; lia).
  rewrite !Zdigits2_log2 by nia.
  rewrite Z.log2_mul_pow2 by lia. lia.
Qed.

Lemma Zdigits2_bounds (a : Z) :
  0 < a -> 2 ^ (Zdigits2 a - 1) <= a < 2 ^ Zdigits2 a.
Proof.
  intros Ha. rewrite Zdigits2_log2 by lia.
  replace (Z.log2 a + 1 - 1) with (Z.log2 a) by lia.
  replace (Z.log2 a + 1) with (Z.succ (Z.log2 a)) by lia.
  apply Z.log2_spec; lia.
Qed.

Lemma fexp_le (a b : Z) : a <= b -> fexp prec emax a <= fexp prec emax b.
Proof. unfold fexp, emin. lia. Qed.

Lemma iter_pos_nat {A} (f : A -> A) (p : positive) (x : A) :
  iter_pos f p x = Nat.iter (Pos.to_nat p) f x.
Proof.
  revert x. induction p as [p IH | p IH |]; intros x; cbn [iter_pos].
  - rewrite !IH, Pos2Nat.inj_xI.
    replace (S (2 * Pos.to_nat p))%nat with (Pos.to_nat p + (Pos.to_nat p + 1))%nat by lia.
    rewrite !Nat.iter_add. reflexivity.
  - rewrite !IH, Pos2Nat.inj_xO.
    replace (2 * Pos.to_nat p)%nat with (Pos.to_nat p + Pos.to_nat p)%nat by lia.
    rewrite Nat.iter_add. reflexivity.
  - reflexivity.
Qed.

Lemma rec_inexact_range mrs : 0 <= rec_inexact mrs <= 1.
Proof. destruct mrs as [m [|] [|]]; cbn; lia. Qed.

Lemma shr_1_upper (mrs : shr_record) (K : Z) :
  0 <= shr_m mrs ->
  shr_m mrs + rec_inexact mrs <= 2 * K ->
  0 <= shr_m (shr_1 mrs) /\ shr_m (shr_1 mrs) + rec_inexact (shr_1 mrs) <= K.
Proof.
  destruct mrs as [m r s]. cbn [shr_m].
  destruct m as [| [p | p |] |]; destruct r, s;
    cbn [shr_1 shr_m rec_inexact loc_of_shr_record inexact orb]; lia.
Qed.

Lemma shr_1_exact (K : Z) :
  0 <= K ->
  shr_1 (Build_shr_record (2 * K) false false) = Build_shr_record K false false.
Proof. destruct K as [| p | p]; try lia; reflexivity. Qed.

Lemma shr_iter_upper (n : nat) (mrs : shr_record) (K : Z) :
  0 <= shr_m mrs ->
  shr_m mrs + rec_inexact mrs <= K * 2 ^ Z.of_nat n ->
  0 <= shr_m (Nat.iter n shr_1 mrs) /\
  shr_m (Nat.iter n shr_1 mrs) + rec_inexact (Nat.iter n shr_1 mrs) <= K.
Proof.
  revert K. induction n as [| n IH]; intros K Hm Hle.
  - rewrite Z.mul_1_r in Hle. split; assumption.
  - rewrite Nat.iter_succ.
    rewrite Nat2Z.inj_succ, Z.pow_succ_r in Hle by lia.
    destruct (IH (2 * K)) as [H0 H1]; [assumption | lia |].
    apply shr_1_upper; assumption.
Qed.

Lemma shr_iter_exact (n : nat) (K : Z) :
  0 <= K ->
  Nat.iter n shr_1 (Build_shr_record (K * 2 ^ Z.of_nat n) false false)
  = Build_shr_record K false false.
Proof.
  revert K. induction n as [| n IH]; intros K HK.
  - rewrite Z.mul_1_r. reflexivity.
  - rewrite Nat.iter_succ.
    rewrite Nat2Z.inj_succ, Z.pow_succ_r by lia.
    replace (K * (2 * 2 ^ Z.of_nat n)) with ((2 * K) * 2 ^ Z.of_nat n) by ring.
    rewrite IH by lia. apply shr_1_exact; assumption.
Qed.

Lemma rec_of_loc_m m l : shr_m (shr_record_of_loc m l) = m.
Proof. destruct l as [| []]; reflexivity. Qed.

Lemma rec_of_loc_inexact m l : rec_inexact (shr_record_of_loc m l) = inexact l.
Proof. destruct l as [| []]; reflexivity. Qed.

(** [shr] keeps a value below a bound on the coarser grid. *)
Lemma shr_upper (mrs : shr_record) (e n K : Z) :
  0 <= shr_m mrs ->
  shr_m mrs + rec_inexact mrs <= K * 2 ^ Z.max 0 n ->
  0 <= shr_m (fst (shr mrs e n)) /\
  shr_m (fst (shr mrs e n)) + rec_inexact (fst (shr mrs e n)) <= K /\
  snd (shr mrs e n) = e + Z.max 0 n.
Proof.
  intros Hm Hle. destruct n as [| p | p]; cbn [shr fst snd].
  - change (Z.max 0 0) with 0 in *. change (2 ^ 0) with 1 in Hle. lia.
  - rewrite iter_pos_nat.
    replace (Z.max 0 (Zpos p)) with (Z.of_nat (Pos.to_nat p)) in Hle by lia.
    destruct (shr_iter_upper _ _ _ Hm Hle). lia.
  - replace (Z.max 0 (Zneg p)) with 0 in * by lia. change (2 ^ 0) with 1 in Hle. lia.
Qed.

Lemma shr_exact (e n K : Z) :
  0 <= K -> 0 <= n ->
  shr (Build_shr_record (K * 2 ^ n) false false) e n
  = (Build_shr_record K false false, e + n).
Proof.
  intros HK Hn. destruct n as [| p | p]; cbn [shr]; try lia.
  - change (2 ^ 0) with 1. do 2 f_equal; lia.
  - rewrite iter_pos_nat.
    replace (Zpos p) with (Z.of_nat (Pos.to_nat p)) at 1 by lia.
    rewrite shr_iter_exact by assumption. reflexivity.
Qed.

Lemma bounded_canonical mB eB :
  bounded prec emax mB eB = true ->
  fexp prec emax (Zpos (digits2_pos mB) + eB) = eB /\ eB <= emax - prec.
Proof.
  unfold bounded, canonical_mantissa. intros H.
  apply andb_true_iff in H. destruct H as [H1 H2].
  apply Z.eqb_eq in H1. apply Z.leb_le in H2. split; assumption.
Qed.

Lemma magnitude_le m ex mB eB :
  0 <= m -> ex <= eB -> m <= Zpos mB * 2 ^ (eB - ex) ->
  Zdigits2 m + ex <= Zpos (digits2_pos mB) + eB.
Proof.
  intros Hm He Hle.
  pose proof (Zdigits2_le _ _ Hm Hle) as Hd.
  rewrite Zdigits2_shift in Hd by lia.
  change (Zdigits2 (Zpos mB)) with (Zpos (digits2_pos mB)) in Hd. lia.
Qed.

Lemma shr_fexp_upper m ex l mB eB :
  0 <= m -> bounded prec emax mB eB = true -> ex <= eB ->
  m + inexact l <= Zpos mB * 2 ^ (eB - ex) ->
  0 <= shr_m (fst (shr_fexp prec emax m ex l)) /\
  ex <= snd (shr_fexp prec emax m ex l) <= eB /\
  shr_m (fst (shr_fexp prec emax m ex l))
    + rec_inexact (fst (shr_fexp prec emax m ex l))
  <= Zpos mB * 2 ^ (eB - snd (shr_fexp prec emax m ex l)).
Proof.
  intros Hm HB He Hle.
  destruct (bounded_canonical _ _ HB) as [Hc _].
  assert (Hi : 0 <= inexact l <= 1) by (destruct l; cbn; lia).
  assert (Hmag : Zdigits2 m + ex <= Zpos (digits2_pos mB) + eB)
    by (apply magnitude_le; lia).
  apply fexp_le in Hmag. rewrite Hc in Hmag.
  unfold shr_fexp.
  set (n := fexp prec emax (Zdigits2 m + ex) - ex) in *.
  assert (Hn : Z.max 0 n <= eB - ex) by lia.
  destruct (shr_upper (shr_record_of_loc m l) ex n
              (Zpos mB * 2 ^ (eB - ex - Z.max 0 n))) as (H0 & H1 & H2).
  - rewrite rec_of_loc_m. assumption.
  - rewrite rec_of_loc_m, rec_of_loc_inexact.
    rewrite <- Z.mul_assoc, <- Z.pow_add_r by lia.
    replace (eB - ex - Z.max 0 n + Z.max 0 n) with (eB - ex) by lia.
    assumption.
  - rewrite H2. split; [assumption |]. split; [lia |].
    replace (eB - (ex + Z.max 0 n)) with (eB - ex - Z.max 0 n) by lia.
    assumption.
Qed.

Lemma round_nearest_even_upper m l :
  0 <= m -> m <= round_nearest_even m l <= m + inexact l.
Proof.
  intros Hm. destruct l as [| []]; cbn [round_nearest_even inexact]; try lia.
  destruct (Z.even m); lia.
Qed.

(** Rounding never crosses a representable float. *)
Lemma binary_round_aux_upper mx ex lx mB eB :
  0 <= mx -> bounded prec emax mB eB = true -> ex <= eB ->
  mx + inexact lx <= Zpos mB * 2 ^ (eB - ex) ->
  below (binary_round_aux prec emax false mx ex lx) mB eB.
Proof.
  intros Hm HB He Hle.
  destruct (bounded_canonical _ _ HB) as [_ Hmax].
  unfold binary_round_aux.
  pose proof (shr_fexp_upper mx ex lx mB eB Hm HB He Hle) as (H0 & H1 & H2).
  destruct (shr_fexp prec emax mx ex lx) as [mrs' e'].
  cbn [fst snd] in H0, H1, H2.
  pose proof (round_nearest_even_upper (shr_m mrs') (loc_of_shr_record mrs') H0)
    as Hr.
  fold (rec_inexact mrs') in Hr.
  set (mr := round_nearest_even (shr_m mrs') (loc_of_shr_record mrs')) in *.
  assert (Hle2 : mr + inexact loc_Exact <= Zpos mB * 2 ^ (eB - e'))
    by (cbn [inexact]; lia).
  pose proof (shr_fexp_upper mr e' loc_Exact mB eB ltac:(lia) HB ltac:(lia) Hle2)
    as (G0 & G1 & G2).
  destruct (shr_fexp prec emax mr e' loc_Exact) as [mrs'' e''].
  cbn [fst snd] in G0, G1, G2.
  pose proof (rec_inexact_range mrs'').
  destruct (shr_m mrs'') as [| m | m] eqn:Em.
  - left; reflexivity.
  - replace (e'' <=? emax - prec) with true by (symmetry; apply Z.leb_le; lia).
    right. exists m, e''. repeat split; lia.
  - lia.
Qed.

Lemma shr_fexp_exact mB eB k :
  bounded prec emax mB eB = true -> 0 <= k ->
  shr_fexp prec emax (Zpos mB * 2 ^ k) (eB - k) loc_Exact
  = (Build_shr_record (Zpos mB) false false, eB).
Proof.
  intros HB Hk. destruct (bounded_canonical _ _ HB) as [Hc _].
  unfold shr_fexp. rewrite Zdigits2_shift by lia.
  change (Zdigits2 (Zpos mB)) with (Zpos (digits2_pos mB)).
  replace (Zpos (digits2_pos mB) + k + (eB - k))
    with (Zpos (digits2_pos mB) + eB) by lia.
  rewrite Hc. replace (eB - (eB - k)) with k by lia.
  cbn [shr_record_of_loc]. rewrite shr_exact by lia.
  f_equal. lia.
Qed.

(** Rounding leaves a representable value alone. *)
Lemma binary_round_aux_exact s mB eB k :
  bounded prec emax mB eB = true -> 0 <= k ->
  binary_round_aux prec emax s (Zpos mB * 2 ^ k) (eB - k) loc_Exact
  = S754_finite s mB eB.
Proof.
  intros HB Hk. destruct (bounded_canonical _ _ HB) as [_ Hmax].
  unfold binary_round_aux. rewrite shr_fexp_exact by assumption.
  cbn [shr_m loc_of_shr_record round_nearest_even].
  pose proof (shr_fexp_exact mB eB 0 HB ltac:(lia)) as H0.
  rewrite Z.mul_1_r, Z.sub_0_r in H0. rewrite H0. cbn [shr_m].
  replace (eB <=? emax - prec) with true by (symmetry; apply Z.leb_le; lia).
  reflexivity.
Qed.

Lemma iter_xO (m d : positive) : Zpos (Pos.iter xO m d) = Zpos m * 2 ^ Zpos d.
Proof.
  induction d as [| d IH] using Pos.peano_ind.
  - cbn [Pos.iter]. lia.
  - rewrite Pos.iter_succ, Pos2Z.inj_xO, IH, Pos2Z.inj_succ, Z.pow_succ_r by lia.
    ring.
Qed.

Lemma shl_align_spec (m : positive) (e e' : Z) :
  snd (shl_align m e e') = Z.min e e' /\
  Zpos (fst (shl_align m e e')) = Zpos m * 2 ^ (e - Z.min e e').
Proof.
  unfold shl_align. destruct (e' - e) as [| d | d] eqn:E; cbn [fst snd].
  - replace (Z.min e e') with e by lia. rewrite Z.sub_diag. lia.
  - replace (Z.min e e') with e by lia. rewrite Z.sub_diag. lia.
  - replace (Z.min e e') with e' by lia. rewrite iter_xO.
    replace (e - e') with (Zpos d) by lia. lia.
Qed.

Lemma new_location_inexact (nb r : Z) :
  inexact (new_location nb r) = if r =? 0 then 0 else 1.
Proof.
  unfold new_location, new_location_even, new_location_odd.
  destruct (Z.even nb); destruct (r =? 0); reflexivity.
Qed.

Lemma pow2_pos (k : Z) : 0 <= k -> 0 < 2 ^ k.
Proof. intros; apply Z.pow_pos_nonneg; lia. Qed.

Lemma pow2_split (a b : Z) : 0 <= a -> 0 <= b -> 2 ^ (a + b) = 2 ^ a * 2 ^ b.
Proof. intros; apply Z.pow_add_r; assumption. Qed.

(** The sum of two non-negative floats stays below a representable bound
    on their exact sum. *)
Lemma SFadd_upper mx ex my ey mB eB :
  bounded prec emax mB eB = true ->
  Z.min ex ey <= eB ->
  Zpos mx * 2 ^ (ex - Z.min ex ey) + Zpos my * 2 ^ (ey - Z.min ex ey)
    <= Zpos mB * 2 ^ (eB - Z.min ex ey) ->
  below (SFadd prec emax (S754_finite false mx ex) (S754_finite false my ey))
        mB eB.
Proof.
  intros HB He Hle. cbn [SFadd cond_Zopp].
  set (ez := Z.min ex ey) in *.
  destruct (shl_align_spec mx ex ez) as [_ Hx].
  destruct (shl_align_spec my ey ez) as [_ Hy].
  replace (Z.min ex ez) with ez in Hx by lia.
  replace (Z.min ey ez) with ez in Hy by lia.
  rewrite <- Hx, <- Hy in Hle. clear Hx Hy.
  set (px := fst (shl_align mx ex ez)) in *.
  set (py := fst (shl_align my ey ez)) in *.
  change (Zpos px + Zpos py) with (Zpos (px + py)) in *.
  cbn [binary_normalize]. unfold binary_round.
  set (et := fexp prec emax (Zpos (digits2_pos (px + py)) + ez)).
  destruct (shl_align_spec (px + py) ez et) as [H1 H2].
  destruct (shl_align (px + py) ez et) as [mz ez']. cbn [fst snd] in H1, H2.
  apply binary_round_aux_upper; try assumption; try lia.
  cbn [inexact]. rewrite H2, Z.add_0_r.
  replace (eB - ez') with ((eB - ez) + (ez - ez')) by lia.
  rewrite pow2_split by lia.
  pose proof (pow2_pos (ez - ez') ltac:(lia)).
  rewrite H1. nia.
Qed.

(** The quotient of two positive floats stays below a representable bound
    on their exact quotient. *)
Lemma SFdiv_upper mx ex my ey mB eB :
  bounded prec emax mB eB = true ->
  let e' := Z.min (fexp prec emax (Zpos (digits2_pos mx) + ex
                                   - (Zpos (digits2_pos my) + ey)))
                  (ex - ey) in
  e' <= eB ->
  Zpos mx * 2 ^ (ex - ey - e') <= Zpos mB * 2 ^ (eB - e') * Zpos my ->
  below (SFdiv prec emax (S754_finite false mx ex) (S754_finite false my ey))
        mB eB.
Proof.
  intros HB e' He Hle.
  cbn [SFdiv xorb]. unfold SFdiv_core_binary.
  cbn [Zdigits2]. fold e'.
  set (s := ex - ey - e') in *.
  assert (Hs : 0 <= s) by (unfold s, e'; lia).
  set (m' := match s with Z0 => Zpos mx | Zpos _ => Z.shiftl (Zpos mx) s
                     | Zneg _ => 0 end).
  assert (Hm' : m' = Zpos mx * 2 ^ s).
  { unfold m'. destruct s as [| p | p] eqn:Es; try lia.
    rewrite Z.shiftl_mul_pow2 by lia. reflexivity. }
  pose proof (Z_div_mod m' (Zpos my) ltac:(lia)) as Hdiv.
  destruct (Z.div_eucl m' (Zpos my)) as [q r]. destruct Hdiv as [Hq Hr].
  pose proof (pow2_pos s Hs).
  apply binary_round_aux_upper; try assumption.
  - nia.
  - rewrite new_location_inexact.
    destruct (Z.eqb_spec r 0); nia.
Qed.

(** The product of two non-negative floats stays below a representable
    bound on their exact product. *)
Lemma SFmul_upper mx ex my ey mB eB :
  bounded prec emax mB eB = true ->
  ex + ey <= eB ->
  Zpos mx * Zpos my <= Zpos mB * 2 ^ (eB - (ex + ey)) ->
  below (SFmul prec emax (S754_finite false mx ex) (S754_finite false my ey))
        mB eB.
Proof.
  intros HB He Hle. cbn [SFmul xorb].
  apply binary_round_aux_upper; try assumption; cbn [inexact]; lia.
Qed.

Lemma below_leb r mB eB :
  below r mB eB ->
  SFleb (S754_zero false) r = true /\ SFleb r (S754_finite false mB eB) = true.
Proof.
  intros [-> | (m & e & -> & He & Hm)]; [split; reflexivity |].
  split; [reflexivity |].
  unfold SFleb, SFcompare.
  destruct (Z.compare_spec e eB) as [-> | Hlt | Hgt]; try reflexivity; try lia.
  rewrite Z.sub_diag, Z.mul_1_r in Hm.
  fold (Pos.compare m mB).
  destruct (Pos.compare_spec m mB); try reflexivity; lia.
Qed.

Lemma binary_round_aux_exact' s m e mB eB :
  bounded prec emax mB eB = true -> e <= eB ->
  m = Zpos mB * 2 ^ (eB - e) ->
  binary_round_aux prec emax s m e loc_Exact = S754_finite s mB eB.
Proof.
  intros HB He ->.
  replace e with (eB - (eB - e)) at 2 by lia.
  apply binary_round_aux_exact; [assumption | lia].
Qed.

Lemma binary_round_exact s m e mB eB :
  bounded prec emax mB eB = true ->
  Zpos m * 2 ^ (e - Z.min e eB) = Zpos mB * 2 ^ (eB - Z.min e eB) ->
  binary_round prec emax s m e = S754_finite s mB eB.
Proof.
  intros HB Heq. destruct (bounded_canonical _ _ HB) as [Hc _].
  assert (Hd : Zpos (digits2_pos m) + e = Zpos (digits2_pos mB) + eB).
  { apply (f_equal Zdigits2) in Heq.
    rewrite !Zdigits2_shift in Heq by lia. cbn [Zdigits2] in Heq. lia. }
  unfold binary_round. rewrite Hd, Hc.
  destruct (shl_align_spec m e eB) as [H1 H2].
  destruct (shl_align m e eB) as [mz ez]. cbn [fst snd] in H1, H2.
  apply binary_round_aux_exact'; [assumption | lia |].
  rewrite H1, H2. exact Heq.
Qed.

Lemma Zdigits2_le_prec n : 0 < n < 2 ^ 53 -> 1 <= Zdigits2 n <= 53.
Proof.
  intros Hn. destruct (Zdigits2_bounds n ltac:(lia)) as [Hlo Hhi].
  split.
  - destruct n; cbn; lia.
  - assert (Zdigits2 n - 1 < 53); [| lia].
    apply (Z.pow_lt_mono_r_iff 2); lia.
Qed.

Lemma dyadic_finite n g :
  0 < n < 2 ^ 53 -> -1074 <= g <= 971 ->
  let e := fexp prec emax (Zdigits2 n + g) in
  let m := Z.to_pos (n * 2 ^ (g - e)) in
  dyadic n g = S754_finite false m e /\
  bounded prec emax m e = true /\
  Zpos m = n * 2 ^ (g - e) /\ e <= g.
Proof.
  intros Hn Hg e m.
  pose proof (Zdigits2_le_prec n Hn) as Hd.
  assert (He : e <= g) by (unfold e, fexp, emin, prec, emax; lia).
  pose proof (pow2_pos (g - e) ltac:(lia)) as Hp.
  assert (Hm : Zpos m = n * 2 ^ (g - e)) by (unfold m; rewrite Z2Pos.id; nia).
  assert (HB : bounded prec emax m e = true).
  { unfold bounded, canonical_mantissa. apply andb_true_iff. split.
    - apply Z.eqb_eq. change (Zpos (digits2_pos m)) with (Zdigits2 (Zpos m)).
      rewrite Hm, Zdigits2_shift by lia.
      replace (Zdigits2 n + (g - e) + e) with (Zdigits2 n + g) by lia.
      reflexivity.
    - apply Z.leb_le. unfold e, fexp, emin, prec, emax. lia. }
  repeat split; try assumption.
  unfold dyadic. destruct n as [| p | p]; try lia. cbn [binary_normalize].
  apply binary_round_exact; [assumption |].
  replace (Z.min g e) with e by lia. rewrite Z.sub_diag, Z.mul_1_r.
  symmetry; exact Hm.
Qed.

Lemma dyadic_zero g : dyadic 0 g = S754_zero false.
Proof. reflexivity. Qed.

(** Adding two multiples of [2^g] is exact while the sum fits the mantissa. *)
Lemma add_dyadic a b g :
  0 <= a -> 0 <= b -> a + b < 2 ^ 53 -> -1074 <= g <= 971 ->
  SFadd prec emax (dyadic a g) (dyadic b g) = dyadic (a + b) g.
Proof.
  intros Ha Hb Hab Hg.
  destruct (Z.eq_dec a 0) as [-> | Ha0]; destruct (Z.eq_dec b 0) as [-> | Hb0].
  - reflexivity.
  - rewrite dyadic_zero, Z.add_0_l.
    destruct (dyadic_finite b g ltac:(lia) Hg) as (-> & _). reflexivity.
  - rewrite dyadic_zero, Z.add_0_r.
    destruct (dyadic_finite a g ltac:(lia) Hg) as (-> & _). reflexivity.
  - destruct (dyadic_finite a g ltac:(lia) Hg) as (-> & _ & Hma & Hea).
    destruct (dyadic_finite b g ltac:(lia) Hg) as (-> & _ & Hmb & Heb).
    destruct (dyadic_finite (a + b) g ltac:(lia) Hg) as (-> & HBc & Hmc & Hec).
    set (ea := fexp prec emax (Zdigits2 a + g)) in *.
    set (eb := fexp prec emax (Zdigits2 b + g)) in *.
    set (ec := fexp prec emax (Zdigits2 (a + b) + g)) in *.
    set (ma := Z.to_pos (a * 2 ^ (g - ea))) in *.
    set (mb := Z.to_pos (b * 2 ^ (g - eb))) in *.
    set (mc := Z.to_pos ((a + b) * 2 ^ (g - ec))) in *.
    assert (Hac : ea <= ec)
      by (apply fexp_le; pose proof (Zdigits2_le a (a + b)); lia).
    assert (Hbc : eb <= ec)
      by (apply fexp_le; pose proof (Zdigits2_le b (a + b)); lia).
    cbn [SFadd cond_Zopp]. set (ez := Z.min ea eb).
    destruct (shl_align_spec ma ea ez) as [_ Hx].
    destruct (shl_align_spec mb eb ez) as [_ Hy].
    replace (Z.min ea ez) with ez in Hx by lia.
    replace (Z.min eb ez) with ez in Hy by lia.
    set (px := fst (shl_align ma ea ez)) in *.
    set (py := fst (shl_align mb eb ez)) in *.
    change (Zpos px + Zpos py) with (Zpos (px + py)).
    cbn [binary_normalize].
    apply binary_round_exact; [assumption |].
    replace (Z.min ez ec) with ez by lia.
    rewrite Z.sub_diag, Z.mul_1_r, Pos2Z.inj_add, Hx, Hy, Hma, Hmb, Hmc.
    rewrite <- !Z.mul_assoc, <- !pow2_split by lia.
    replace (g - ea + (ea - ez)) with (g - ez) by lia.
    replace (g - eb + (eb - ez)) with (g - ez) by lia.
    replace (g - ec + (ec - ez)) with (g - ez) by lia.
    ring.
Qed.

Lemma new_location_zero nb : new_location nb 0 = loc_Exact.
Proof.
  unfold new_location, new_location_even, new_location_odd.
  destruct (Z.even nb); reflexivity.
Qed.

Lemma Zdigits2_mul a b :
  0 < a -> 0 < b -> Zdigits2 (a * b) <= Zdigits2 a + Zdigits2 b.
Proof.
  intros Ha Hb.
  destruct (Zdigits2_bounds a Ha) as [_ Ha2].
  destruct (Zdigits2_bounds b Hb) as [_ Hb2].
  destruct (Zdigits2_bounds (a * b) ltac:(nia)) as [Hab _].
  pose proof (Zdigits2_nonneg a). pose proof (Zdigits2_nonneg b).
  assert (a * b < 2 ^ (Zdigits2 a + Zdigits2 b)).
  { rewrite pow2_split by assumption. nia. }
  assert (Zdigits2 (a * b) - 1 < Zdigits2 a + Zdigits2 b); [| lia].
  apply (Z.pow_lt_mono_r_iff 2); lia.
Qed.

(** Dividing [N * n * 2^g] by the integer [N] gives back [n * 2^g]. *)
Lemma div_dyadic N n g :
  0 < N -> 0 < n -> N * n < 2 ^ 53 -> -1074 <= g <= 971 ->
  SFdiv prec emax (dyadic (N * n) g) (dyadic N 0) = dyadic n g.
Proof.
  intros HN Hn HNn Hg.
  destruct (dyadic_finite (N * n) g ltac:(nia) Hg) as (-> & _ & Hmx & Hex).
  destruct (dyadic_finite N 0 ltac:(nia) ltac:(lia)) as (-> & _ & Hmy & Hey).
  destruct (dyadic_finite n g ltac:(nia) Hg) as (-> & HBn & Hmn & Hen).
  set (ex := fexp prec emax (Zdigits2 (N * n) + g)) in *.
  set (ey := fexp prec emax (Zdigits2 N + 0)) in *.
  set (en := fexp prec emax (Zdigits2 n + g)) in *.
  set (mx := Z.to_pos (N * n * 2 ^ (g - ex))) in *.
  set (my := Z.to_pos (N * 2 ^ (0 - ey))) in *.
  set (mn := Z.to_pos (n * 2 ^ (g - en))) in *.
  cbn [SFdiv xorb]. unfold SFdiv_core_binary. cbn [Zdigits2].
  change (Zpos (digits2_pos mx)) with (Zdigits2 (Zpos mx)).
  change (Zpos (digits2_pos my)) with (Zdigits2 (Zpos my)).
  rewrite Hmx, Hmy, !Zdigits2_shift by nia.
  set (e' := Z.min _ (ex - ey)).
  assert (He' : e' <= en).
  { pose proof (Zdigits2_mul N n HN Hn).
    assert (fexp prec emax (Zdigits2 (N * n) + (g - ex) + ex
                            - (Zdigits2 N + (0 - ey) + ey)) <= en)
      by (apply fexp_le; lia).
    unfold e'. lia. }
  set (s := ex - ey - e').
  assert (Hs : 0 <= s) by (unfold s, e'; lia).
  set (m' := match s with Z0 => _ | Zpos _ => _ | Zneg _ => _ end).
  assert (Hm' : m' = N * 2 ^ (0 - ey) * (n * 2 ^ (g - e'))).
  { assert (m' = N * n * 2 ^ (g - ex) * 2 ^ s) as ->.
    { unfold m'. destruct s as [| p | p] eqn:Es; try lia.
      rewrite Z.shiftl_mul_pow2 by lia. reflexivity. }
    replace (g - e') with ((g - ex) + s + ey) by (unfold s; lia).
    assert (0 <= g - ex + s + ey) by (unfold s; lia).
    replace (N * 2 ^ (0 - ey) * (n * 2 ^ (g - ex + s + ey)))
      with (N * n * (2 ^ (0 - ey) * 2 ^ (g - ex + s + ey))) by ring.
    rewrite <- pow2_split by lia.
    replace (0 - ey + (g - ex + s + ey)) with ((g - ex) + s) by lia.
    rewrite pow2_split by lia. ring. }
  pose proof (pow2_pos (0 - ey) ltac:(lia)).
  pose proof (pow2_pos (g - e') ltac:(lia)).
  pose proof (Z_div_mod m' (N * 2 ^ (0 - ey)) ltac:(nia)) as Hdiv.
  destruct (Z.div_eucl m' (N * 2 ^ (0 - ey))) as [q r]. destruct Hdiv as [Hq Hr].
  assert (Hqr : q = n * 2 ^ (g - e') /\ r = 0).
  { rewrite Hm' in Hq.
    set (D := N * 2 ^ (0 - ey)) in *. set (Q := n * 2 ^ (g - e')) in *.
    assert (Q - q = 0) by nia. split; nia. }
  destruct Hqr as [-> ->]. rewrite new_location_zero.
  apply binary_round_aux_exact'; [assumption | assumption |].
  rewrite Hmn, <- Z.mul_assoc, <- pow2_split by lia.
  f_equal. f_equal. lia.
Qed.


(** ** The Python operations at the types the notebook uses *)

Lemma truediv_ints a b :
  truediv (VInt a) (VInt b) = (q <- int_truediv a b ;; Ok (VFloat q)).
Proof. reflexivity. Qed.

Lemma truediv_float_int x n :
  truediv (VFloat x) (VInt n)
  = (y <- float_of_int n ;; q <- float_truediv x y ;; Ok (VFloat q)).
Proof. reflexivity. Qed.

Lemma add_int_float n x :
  add (VInt n) (VFloat x) = (y <- float_of_int n ;; Ok (VFloat (fadd y x))).
Proof. reflexivity. Qed.

Lemma add_floats x y : add (VFloat x) (VFloat y) = Ok (VFloat (fadd x y)).
Proof. reflexivity. Qed.

Lemma mul_int_float n x :
  mul (VInt n) (VFloat x) = (y <- float_of_int n ;; Ok (VFloat (fmul y x))).
Proof. reflexivity. Qed.

Lemma to_float_float x : to_float (VFloat x) = Ok (VFloat x).
Proof. reflexivity. Qed.

Lemma float_of_int_0 : float_of_int 0 = Ok zero.
Proof. reflexivity. Qed.

Lemma float_of_int_4 : float_of_int 4 = Ok four.
Proof. reflexivity. Qed.

Lemma one_finite : one = S754_finite false 4503599627370496 (-52).
Proof. reflexivity. Qed.

Lemma four_finite : four = S754_finite false 4503599627370496 (-50).
Proof. reflexivity. Qed.

Lemma float_of_int_small N :
  0 < N < 2 ^ 53 -> float_of_int N = Ok (dyadic N 0).
Proof.
  intros HN. unfold float_of_int.
  destruct (dyadic_finite N 0 HN ltac:(lia)) as (-> & _). reflexivity.
Qed.

(** ** The sampler *)

Section Sampler.

Variable pow : float -> float -> float.

Lemma predicate_run (g : rng) :
  predicate pow g
  = (Ok (in_circle_test pow (tape g (cursor g)) (tape g (S (cursor g)))),
     {| tape := tape g; cursor := S (S (cursor g)) |}).
Proof. reflexivity. Qed.

Lemma drawn_pairs_succ (g : rng) (n : nat) :
  drawn_pairs g (S n)
  = drawn_pair g 0
    :: drawn_pairs {| tape := tape g; cursor := S (S (cursor g)) |} n.
Proof.
  unfold drawn_pairs. cbn [seq map]. f_equal.
  rewrite <- seq_shift, map_map. apply map_ext. intros i.
  unfold drawn_pair. cbn [tape cursor]. f_equal; f_equal; lia.
Qed.

Lemma count_in_circle_cons (p : float * float) ps :
  count_in_circle pow (p :: ps)
  = Z.b2z (in_circle_test pow (fst p) (snd p)) + count_in_circle pow ps.
Proof.
  unfold count_in_circle. cbn [filter].
  destruct (in_circle_test pow (fst p) (snd p)); cbn [length Z.b2z]; lia.
Qed.

Lemma count_in_circle_range ps :
  0 <= count_in_circle pow ps <= Z.of_nat (length ps).
Proof.
  unfold count_in_circle.
  pose proof (filter_length_le (fun p => in_circle_test pow (fst p) (snd p)) ps).
  lia.
Qed.

Lemma drawn_pairs_length g n : length (drawn_pairs g n) = n.
Proof. unfold drawn_pairs. rewrite length_map, length_seq. reflexivity. Qed.

Lemma randomize_loop_run (n : nat) : forall (in_circle : Z) (g : rng),
  randomize_loop pow n in_circle g
  = (Ok (in_circle + count_in_circle pow (drawn_pairs g n)),
     {| tape := tape g; cursor := cursor g + 2 * n |}).
Proof.
  induction n as [| n IH]; intros acc g.
  - destruct g as [t c]. cbn [randomize_loop ret tape cursor].
    unfold count_in_circle, drawn_pairs. cbn [seq map filter length].
    replace (c + 2 * 0)%nat with c by lia.
    replace (acc + Z.of_nat 0) with acc by lia. reflexivity.
  - cbn [randomize_loop]. unfold mbind at 1. rewrite predicate_run, IH.
    rewrite drawn_pairs_succ, count_in_circle_cons.
    unfold drawn_pair at 1 2. cbn [fst snd tape cursor].
    replace (cursor g + 2 * 0)%nat with (cursor g) by lia.
    replace (cursor g + 1)%nat with (S (cursor g)) by lia.
    replace (S (S (cursor g)) + 2 * n)%nat with (cursor g + 2 * S n)%nat by lia.
    rewrite Z.add_assoc. reflexivity.
Qed.

End Sampler.

(** A count out of [T] trials divides to a double between 0 and 1. *)
Lemma int_truediv_fraction c T :
  0 <= c <= T -> 0 < T ->
  int_truediv c T = Ok (ratio c T) /\
  below (ratio c T) 4503599627370496 (-52).
Proof.
  intros Hc HT.
  assert (Hb : below (ratio c T)
                     4503599627370496 (-52)).
  { destruct T as [| t | t]; try lia. destruct c as [| c | c]; try lia.
    - left; reflexivity.
    - unfold ratio. cbn [exact_of_int]. unfold fdiv.
      pose proof (Zdigits2_le (Zpos c) (Zpos t) ltac:(lia) ltac:(lia)) as Hd.
      cbn [Zdigits2] in Hd.
      assert (He : fexp prec emax (Zpos (digits2_pos c) + 0
                                   - (Zpos (digits2_pos t) + 0)) <= -53)
        by (unfold fexp, emin, prec, emax; lia).
      apply SFdiv_upper; [reflexivity | lia |].
      set (e' := Z.min _ _) in *.
      replace (0 - 0 - e') with (52 + (-52 - e')) by lia.
      rewrite pow2_split by lia.
      pose proof (pow2_pos (-52 - e') ltac:(lia)).
      change (2 ^ 52) with 4503599627370496. nia. }
  split; [| exact Hb].
  unfold int_truediv.
  replace (T =? 0) with false by (symmetry; apply Z.eqb_neq; lia).
  fold (ratio c T).
  destruct Hb as [-> | (m & e & -> & _)]; reflexivity.
Qed.

(** One run of the sampler: the count of the pairs in the circle, divided
    by the number of trials. *)
Lemma randomize_points_run pow T data g :
  0 < T ->
  randomize_points pow T data g
  = (Ok (VFloat (ratio (count_in_circle pow (drawn_pairs g (Z.to_nat T))) T)),
     {| tape := tape g; cursor := cursor g + 2 * Z.to_nat T |}).
Proof.
  intros HT. unfold randomize_points, mbind.
  rewrite randomize_loop_run, Z.add_0_l. unfold lift.
  rewrite truediv_ints.
  pose proof (count_in_circle_range pow (drawn_pairs g (Z.to_nat T))) as Hc.
  rewrite drawn_pairs_length in Hc.
  destruct (int_truediv_fraction
              (count_in_circle pow (drawn_pairs g (Z.to_nat T))) T
              ltac:(lia) HT) as [-> _].
  reflexivity.
Qed.

(** C1: for a trial count [T > 0] the sampler draws [T] pairs [(x, y)]
    from the generator, counts those with [x^2 + y^2 <= 1], where the
    square [sq x] is what the C library's [pow] returns for [x ** 2], and
    returns that count divided by [T], as a float. *)
Theorem randomize_points_returns_fraction pow sq T data g :
  0 < T ->
  (forall x, pow x two = sq x) ->
  length (drawn_pairs g (Z.to_nat T)) = Z.to_nat T /\
  randomize_points pow T data g
  = (Ok (VFloat (ratio (count_satisfying (on_unit_disc sq)
                                         (drawn_pairs g (Z.to_nat T))) T)),
     {| tape := tape g; cursor := cursor g + 2 * Z.to_nat T |}).
Proof.
  intros HT Hsq. split; [apply drawn_pairs_length |].
  rewrite randomize_points_run by assumption.
  do 4 f_equal. unfold count_in_circle, count_satisfying. do 2 f_equal.
  apply filter_ext. intros [x y].
  unfold in_circle_test, on_unit_disc. cbn [fst snd].
  rewrite !Hsq. reflexivity.
Qed.

Lemma randomize_points_returns_fraction_witness :
  randomize_points square 3 VNone halves
  = (Ok (VFloat (ratio (count_satisfying (on_unit_disc (fun x => fmul x x))
                                         (drawn_pairs halves 3)) 3)),
     {| tape := tape halves; cursor := 6 |}).
Proof.
  apply (randomize_points_returns_fraction
           square (fun x => fmul x x) 3 VNone halves).
  - lia.
  - reflexivity.
Defined.

(** C7: for a trial count [T > 0] the fraction the sampler returns lies in
    the closed interval from 0 to 1. *)
Theorem randomize_points_in_unit_interval pow T data g :
  0 < T ->
  exists r, fst (randomize_points pow T data g) = Ok (VFloat r) /\
            fle zero r = true /\ fle r one = true.
Proof.
  intros HT. rewrite randomize_points_run by assumption. cbn [fst].
  eexists; split; [reflexivity |].
  pose proof (count_in_circle_range pow (drawn_pairs g (Z.to_nat T))) as Hc.
  rewrite drawn_pairs_length in Hc.
  destruct (int_truediv_fraction
              (count_in_circle pow (drawn_pairs g (Z.to_nat T))) T
              ltac:(lia) HT) as [_ Hb].
  rewrite one_finite. apply below_leb; assumption.
Qed.

Lemma randomize_points_in_unit_interval_witness :
  exists r, fst (randomize_points square 3 (VInt 0) halves) = Ok (VFloat r) /\
            fle zero r = true /\ fle r one = true.
Proof.
  apply (randomize_points_in_unit_interval square 3 (VInt 0) halves). lia.
Defined.

(** C8: with one trial per task the sampler returns 0.0 or 1.0, whatever
    the generator draws. *)
Theorem randomize_points_single_trial pow data g :
  fst (randomize_points pow 1 data g) = Ok (VFloat zero) \/
  fst (randomize_points pow 1 data g) = Ok (VFloat one).
Proof.
  rewrite randomize_points_run by lia. cbn [fst].
  change (Z.to_nat 1) with 1%nat. rewrite drawn_pairs_succ.
  rewrite count_in_circle_cons.
  destruct (in_circle_test pow _ _); [right | left]; reflexivity.
Qed.

(** C9: the placeholder argument is ignored: two runs on the same
    generator state return the same result and leave the same state,
    whatever data each is given. *)
Theorem randomize_points_ignores_data pow T data1 data2 g :
  randomize_points pow T data1 g = randomize_points pow T data2 g.
Proof. reflexivity. Qed.

(** ** The reducer *)

Lemma sum_loop_floats xs : forall x,
  sum_loop (VFloat x) (map VFloat xs) = Ok (VFloat (fold_left fadd xs x)).
Proof.
  induction xs as [| y xs IH]; intros x; [reflexivity |].
  cbn [map sum_loop fold_left]. rewrite add_floats. cbn [bind]. apply IH.
Qed.

Lemma sum_loop_from_zero x xs :
  sum_loop (VInt 0) (map VFloat (x :: xs))
  = Ok (VFloat (float_sum (x :: xs))).
Proof.
  cbn [map sum_loop]. rewrite add_int_float, float_of_int_0. cbn [bind].
  apply sum_loop_floats.
Qed.

Lemma process_empty N :
  process_in_circle_points N []
  = (q <- int_truediv 0 N ;; y <- float_of_int 4 ;; Ok (VFloat (fmul y q))).
Proof.
  unfold process_in_circle_points. cbn [sum_loop bind].
  rewrite truediv_ints. destruct (int_truediv 0 N); reflexivity.
Qed.

Lemma process_floats N x xs :
  process_in_circle_points N (map VFloat (x :: xs))
  = (y <- float_of_int N ;;
     q <- float_truediv (float_sum (x :: xs)) y ;;
     Ok (VFloat (fmul four q))).
Proof.
  unfold process_in_circle_points. rewrite sum_loop_from_zero. cbn [bind].
  rewrite truediv_float_int.
  destruct (float_of_int N) as [y |]; [| reflexivity]. cbn [bind].
  destruct (float_truediv _ y) as [q |]; reflexivity.
Qed.

(** C2: on a sequence of as many partial fractions as there are map tasks
    the reducer returns their arithmetic mean multiplied by 4. *)
Theorem process_in_circle_points_mean N xs :
  Z.of_nat (length xs) = N ->
  process_in_circle_points N (map VFloat xs)
  = (r <- mean_times_four xs ;; Ok (VFloat r)).
Proof.
  intros <-. destruct xs as [| x xs]; [reflexivity |].
  rewrite process_floats. unfold mean_times_four.
  destruct (float_of_int _) as [y |]; [| reflexivity]. cbn [bind].
  destruct (float_truediv _ y) as [q |]; reflexivity.
Qed.

Lemma process_in_circle_points_mean_witness :
  process_in_circle_points 2 (map VFloat [one; zero]) = Ok (VFloat two).
Proof.
  rewrite (process_in_circle_points_mean 2 [one; zero]) by reflexivity.
  vm_compute. reflexivity.
Defined.

(** With no results for a positive number of tasks the reducer divides 0
    by [MAP_INSTANCES] and returns 0.0. *)
Lemma process_empty_positive N :
  0 < N -> process_in_circle_points N [] = Ok (VFloat zero).
Proof.
  intros HN. rewrite process_empty.
  destruct (int_truediv_fraction 0 N ltac:(lia) HN) as [-> _].
  destruct N; try lia. reflexivity.
Qed.

(** C3: the reducer's contract gives it as many partial fractions as
    there are map tasks, so an empty sequence means [MAP_INSTANCES = 0];
    the reducer then divides 0 by 0 and raises [ZeroDivisionError]. *)
Theorem process_in_circle_points_empty_raises N (results : list value) :
  Z.of_nat (length results) = N -> results = [] ->
  process_in_circle_points N results = Raise ZeroDivisionError.
Proof. intros <- ->. reflexivity. Qed.

Lemma process_in_circle_points_empty_raises_witness :
  process_in_circle_points 0 [] = Raise ZeroDivisionError.
Proof.
  apply (process_in_circle_points_empty_raises 0 []); reflexivity.
Defined.

(** C4: the driver dispatches [MAP_INSTANCES] map tasks, and the reducer
    divides by that same number. *)
Theorem reducer_divides_by_task_count N :
  0 <= N ->
  Z.of_nat (length (iterdata N)) = N /\
  forall results,
    process_in_circle_points N results
    = (in_circle_percent <- sum_loop (VInt 0) results ;;
       q <- truediv in_circle_percent (VInt (Z.of_nat (length (iterdata N)))) ;;
       p <- mul (VInt 4) q ;;
       to_float p).
Proof.
  intros HN.
  assert (H : Z.of_nat (length (iterdata N)) = N)
    by (unfold iterdata; rewrite repeat_length; lia).
  split; [exact H |]. intros results. rewrite H. reflexivity.
Qed.

Lemma reducer_divides_by_task_count_witness :
  Z.of_nat (length (iterdata Notebook.MAP_INSTANCES)) = Notebook.MAP_INSTANCES.
Proof.
  apply (reducer_divides_by_task_count Notebook.MAP_INSTANCES).
  vm_compute. discriminate.
Defined.

(** *** Bounds on the reducer's intermediate values *)

Lemma below_int_mono r k k' : below_int r k -> k <= k' -> below_int r k'.
Proof.
  intros [-> | (m & e & -> & He & Hm)] Hk; [left; reflexivity | right].
  exists m, e. repeat split; try assumption.
  pose proof (pow2_pos (- e) ltac:(lia)). nia.
Qed.

Lemma below_to_int r mB eB K :
  below r mB eB -> eB <= 0 -> Zpos mB = K * 2 ^ (- eB) -> below_int r K.
Proof.
  intros [-> | (m & e & -> & He & Hm)] HeB HK; [left; reflexivity | right].
  exists m, e. repeat split; try lia.
  rewrite HK, <- Z.mul_assoc, <- pow2_split in Hm by lia.
  replace (- eB + (eB - e)) with (- e) in Hm by lia. exact Hm.
Qed.

Lemma valid_mantissa_small m e :
  valid_binary prec emax (S754_finite false m e) = true -> Zpos m < 2 ^ 53.
Proof.
  intros H. destruct (bounded_canonical _ _ H) as [Hc _].
  destruct (Zdigits2_bounds (Zpos m) ltac:(lia)) as [_ Hhi].
  cbn [Zdigits2] in Hhi.
  assert (Zpos (digits2_pos m) <= 53)
    by (revert Hc; unfold fexp, emin, prec, emax; lia).
  pose proof (Z.pow_le_mono_r 2 (Zpos (digits2_pos m)) 53 ltac:(lia) ltac:(lia)).
  lia.
Qed.

Lemma finite_leb_cases m e mB eB :
  SFleb (S754_finite false m e) (S754_finite false mB eB) = true ->
  e < eB \/ (e = eB /\ Zpos m <= Zpos mB).
Proof.
  unfold SFleb, SFcompare.
  destruct (Z.compare_spec e eB) as [-> | Hlt | Hgt]; try discriminate.
  - fold (Pos.compare m mB).
    destruct (Pos.compare_spec m mB); try discriminate; right; split; lia.
  - left; assumption.
Qed.

(** A double between 0.0 and 1.0 is a zero or a positive number of value
    at most 1. *)
Lemma unit_interval_cases x :
  in_interval zero one x ->
  is_zero x = true \/
  exists m e, x = S754_finite false m e /\ e <= -52 /\ Zpos m <= 2 ^ (- e).
Proof.
  intros (Hv & H0 & H1). destruct x as [s | s | | s m e].
  - left; reflexivity.
  - destruct s; discriminate.
  - discriminate.
  - right. destruct s; [discriminate |]. exists m, e. split; [reflexivity |].
    rewrite one_finite in H1.
    destruct (finite_leb_cases _ _ _ _ H1) as [Hlt | [-> Hm]].
    + split; [lia |].
      pose proof (valid_mantissa_small m e Hv).
      pose proof (Z.pow_le_mono_r 2 53 (- e) ltac:(lia) ltac:(lia)). lia.
    + split; [lia |]. change (2 ^ (- -52)) with 4503599627370496. exact Hm.
Qed.

(** Adding one more partial fraction raises the bound on the sum by 1. *)
Lemma add_fraction_bound s x k :
  below_int s k -> 0 <= k -> k + 1 < 2 ^ 53 -> in_interval zero one x ->
  below_int (fadd s x) (k + 1).
Proof.
  intros Hs Hk Hk1 Hx.
  destruct (unit_interval_cases x Hx) as [Hz | (mx & ex & -> & Hex & Hmx)].
  - destruct x as [sx | | |]; try discriminate.
    apply below_int_mono with k; [| lia].
    destruct Hs as [-> | (m & e & -> & H)].
    + left. destruct sx; reflexivity.
    + right. exists m, e. split; [reflexivity | exact H].
  - destruct Hs as [-> | (ms & es & -> & Hes & Hms)].
    + right. exists mx, ex. split; [reflexivity |]. split; [lia |].
      pose proof (pow2_pos (- ex) ltac:(lia)). nia.
    + destruct (dyadic_finite (k + 1) 0 ltac:(lia) ltac:(lia))
        as (_ & HB & HmB & HeB).
      pose proof (Zdigits2_le_prec (k + 1) ltac:(lia)) as Hd.
      set (eB := fexp prec emax (Zdigits2 (k + 1) + 0)) in *.
      set (mB := Z.to_pos ((k + 1) * 2 ^ (0 - eB))) in *.
      assert (HeB' : -52 <= eB) by (unfold eB, fexp, emin, prec, emax; lia).
      apply below_to_int with mB eB; [| lia | rewrite HmB; f_equal].
      unfold fadd. apply SFadd_upper; [assumption | lia |].
      set (ez := Z.min es ex).
      assert (Hez : ez <= es /\ ez <= ex) by (unfold ez; lia).
      rewrite HmB, <- Z.mul_assoc, <- pow2_split by lia.
      replace (0 - eB + (eB - ez)) with (- ez) by lia.
      assert (H1 : Zpos ms * 2 ^ (es - ez) <= k * 2 ^ (- ez)).
      { replace (- ez) with (- es + (es - ez)) by lia.
        rewrite pow2_split by lia.
        pose proof (pow2_pos (es - ez) ltac:(lia)). nia. }
      assert (H2 : Zpos mx * 2 ^ (ex - ez) <= 2 ^ (- ez)).
      { replace (- ez) with (- ex + (ex - ez)) by lia.
        rewrite pow2_split by lia.
        pose proof (pow2_pos (ex - ez) ltac:(lia)). nia. }
      lia.
Qed.

Lemma fold_fractions_bound xs : forall s k,
  Forall (in_interval zero one) xs ->
  below_int s k -> 0 <= k -> k + Z.of_nat (length xs) < 2 ^ 53 ->
  below_int (fold_left fadd xs s) (k + Z.of_nat (length xs)).
Proof.
  induction xs as [| x xs IH]; intros s k Hxs Hs Hk Hlen.
  - cbn [fold_left length]. apply below_int_mono with k; [assumption | lia].
  - inversion Hxs as [| ? ? Hx Hxs']; subst.
    cbn [fold_left]. cbn [length] in *.
    replace (k + Z.of_nat (S (length xs)))
      with ((k + 1) + Z.of_nat (length xs)) by lia.
    apply IH; try assumption; try lia.
    apply add_fraction_bound; try assumption; lia.
Qed.

(** A sum of at most [N] fractions, divided by [N], is at most 1. *)
Lemma divide_sum_bound s N :
  0 < N < 2 ^ 53 -> below_int s N ->
  below (fdiv s (dyadic N 0)) 4503599627370496 (-52).
Proof.
  intros HN Hs.
  destruct (dyadic_finite N 0 HN ltac:(lia)) as (-> & HB & HmN & HeN).
  pose proof (Zdigits2_le_prec N HN) as Hd.
  set (eN := fexp prec emax (Zdigits2 N + 0)) in *.
  set (mN := Z.to_pos (N * 2 ^ (0 - eN))) in *.
  destruct Hs as [-> | (ms & es & -> & Hes & Hms)]; [left; reflexivity |].
  unfold fdiv.
  assert (HdN : Zpos (digits2_pos mN) = Zdigits2 N - eN).
  { change (Zpos (digits2_pos mN)) with (Zdigits2 (Zpos mN)).
    rewrite HmN, Zdigits2_shift by lia. lia. }
  assert (Hds : Zpos (digits2_pos ms) + es <= Zdigits2 N).
  { pose proof (Zdigits2_le (Zpos ms) (N * 2 ^ (- es)) ltac:(lia) Hms) as H.
    rewrite Zdigits2_shift in H by lia. cbn [Zdigits2] in H. lia. }
  assert (He : fexp prec emax (Zpos (digits2_pos ms) + es
                               - (Zpos (digits2_pos mN) + eN)) <= -53)
    by (unfold fexp, emin, prec, emax; lia).
  apply SFdiv_upper; [reflexivity | lia |].
  set (e' := Z.min _ _) in *.
  assert (He' : e' <= -53 /\ e' <= es - eN) by (unfold e'; lia).
  rewrite HmN.
  replace (-52 - e') with ((-52 - e') + 0) by lia.
  assert (Hp : 4503599627370496 * 2 ^ (-52 - e') = 2 ^ (- e')).
  { change 4503599627370496 with (2 ^ 52). rewrite <- pow2_split by lia.
    f_equal. lia. }
  rewrite Z.add_0_r, Hp.
  replace (2 ^ (- e') * (N * 2 ^ (0 - eN)))
    with (N * (2 ^ (- e') * 2 ^ (0 - eN))) by ring.
  rewrite <- pow2_split by lia.
  replace (- e' + (0 - eN)) with (- es + (es - eN - e')) by lia.
  rewrite pow2_split by lia.
  pose proof (pow2_pos (es - eN - e') ltac:(lia)). nia.
Qed.

(** Four times a float of value at most 1 is at most 4. *)
Lemma times_four_bound q :
  below q 4503599627370496 (-52) ->
  below (fmul four q) 4503599627370496 (-50).
Proof.
  intros [-> | (m & e & -> & He & Hm)]; [left; reflexivity |].
  rewrite four_finite. unfold fmul.
  apply SFmul_upper; [reflexivity | lia |].
  replace (-50 - (-50 + e)) with (-52 - e + 52) by lia.
  rewrite pow2_split by lia. change (2 ^ 52) with 4503599627370496. nia.
Qed.

Lemma dyadic_not_zero N : 0 < N < 2 ^ 53 -> is_zero (dyadic N 0) = false.
Proof.
  intros HN. destruct (dyadic_finite N 0 HN ltac:(lia)) as (-> & _).
  reflexivity.
Qed.

(** C10: on at most [MAP_INSTANCES] partial fractions, each between 0 and
    1, the reducer raises no error and returns a float between 0 and 4. *)
Theorem process_in_circle_points_bounded N xs :
  0 < N < 2 ^ 53 ->
  Forall (in_interval zero one) xs ->
  Z.of_nat (length xs) <= N ->
  exists r, process_in_circle_points N (map VFloat xs) = Ok (VFloat r) /\
            fle zero r = true /\ fle r four = true.
Proof.
  intros HN Hxs Hlen. destruct xs as [| x xs].
  - exists zero. split; [| split; reflexivity].
    apply process_empty_positive. lia.
  - rewrite process_floats, float_of_int_small by assumption. cbn [bind].
    unfold float_truediv. rewrite dyadic_not_zero by assumption. cbn [bind].
    eexists; split; [reflexivity |].
    rewrite four_finite. apply below_leb. rewrite <- four_finite.
    apply times_four_bound, divide_sum_bound; [assumption |].
    apply below_int_mono with (0 + Z.of_nat (length (x :: xs))); [| lia].
    apply fold_fractions_bound; try assumption; try lia.
    left; reflexivity.
Qed.

Lemma process_in_circle_points_bounded_witness :
  exists r,
    process_in_circle_points Notebook.MAP_INSTANCES
      (map VFloat [ratio 1 2; one; zero])
    = Ok (VFloat r) /\
    fle zero r = true /\ fle r four = true.
Proof.
  apply (process_in_circle_points_bounded Notebook.MAP_INSTANCES
           [ratio 1 2; one; zero]).
  - vm_compute. split; reflexivity.
  - repeat constructor.
  - vm_compute. discriminate.
Defined.

(** *** Sums that do not round *)

Lemma fold_dyadics g ns : forall acc,
  -1074 <= g <= 971 -> 0 <= acc -> Forall (fun n => 0 <= n) ns ->
  acc + total ns < 2 ^ 53 ->
  fold_left fadd (dyadics g ns) (dyadic acc g) = dyadic (acc + total ns) g.
Proof.
  induction ns as [| n ns IH]; intros acc Hg Hacc Hns Hsum.
  - cbn [dyadics map fold_left total fold_right]. rewrite Z.add_0_r.
    reflexivity.
  - inversion Hns as [| ? ? Hn Hns']; subst.
    cbn [total fold_right] in *. fold (total ns) in *.
    assert (Ht : 0 <= total ns).
    { clear - Hns'. induction Hns'; cbn [total fold_right]; [lia |].
      fold (total l). lia. }
    cbn [dyadics map fold_left]. fold (dyadics g ns). unfold fadd at 2.
    rewrite add_dyadic by lia.
    rewrite IH by (try assumption; lia). f_equal. lia.
Qed.

Lemma float_sum_dyadics g ns :
  -1074 <= g <= 971 -> Forall (fun n => 0 <= n) ns -> total ns < 2 ^ 53 ->
  float_sum (dyadics g ns) = dyadic (total ns) g.
Proof.
  intros Hg Hns Hsum. unfold float_sum.
  change zero with (dyadic 0 g).
  rewrite fold_dyadics by (try assumption; lia). reflexivity.
Qed.

Lemma total_Permutation ns ns' : Permutation ns ns' -> total ns = total ns'.
Proof.
  induction 1; cbn [total fold_right]; fold total; try lia.
  unfold total in *. lia.
Qed.

Lemma total_repeat n k : total (repeat n k) = Z.of_nat k * n.
Proof.
  induction k as [| k IH]; [reflexivity |].
  cbn [repeat total fold_right]. fold (total (repeat n k)). lia.
Qed.

(** C5, as the code has it: the reducer is order-independent when the sum
    does not round, as for partial fractions that are non-negative
    multiples [n * 2^g] of one power of two whose multipliers add up to
    less than [2^53]. *)
Theorem process_in_circle_points_order_independent N g ns ns' :
  -1074 <= g <= 971 ->
  Forall (fun n => 0 <= n) ns ->
  total ns < 2 ^ 53 ->
  Permutation ns ns' ->
  process_in_circle_points N (map VFloat (dyadics g ns))
  = process_in_circle_points N (map VFloat (dyadics g ns')).
Proof.
  intros Hg Hns Hsum Hperm.
  assert (Hns' : Forall (fun n => 0 <= n) ns')
    by (eapply Permutation_Forall; eassumption).
  pose proof (total_Permutation _ _ Hperm) as Ht.
  pose proof (float_sum_dyadics g ns Hg Hns Hsum) as Hs.
  pose proof (float_sum_dyadics g ns' Hg Hns' ltac:(lia)) as Hs'.
  destruct ns as [| n ns]; destruct ns' as [| n' ns'].
  - reflexivity.
  - apply Permutation_nil in Hperm. discriminate.
  - apply Permutation_sym, Permutation_nil in Hperm. discriminate.
  - change (dyadics g (n :: ns)) with (dyadic n g :: dyadics g ns) in *.
    change (dyadics g (n' :: ns')) with (dyadic n' g :: dyadics g ns') in *.
    rewrite !process_floats, Hs, Hs', Ht. reflexivity.
Qed.

Lemma process_in_circle_points_order_independent_witness :
  process_in_circle_points Notebook.MAP_INSTANCES
    (map VFloat (dyadics (-2) [1; 2; 3]))
  = process_in_circle_points Notebook.MAP_INSTANCES
      (map VFloat (dyadics (-2) [3; 1; 2])).
Proof.
  apply (process_in_circle_points_order_independent
           Notebook.MAP_INSTANCES (-2) [1; 2; 3] [3; 1; 2]).
  - lia.
  - repeat constructor; lia.
  - vm_compute. reflexivity.
  - apply Permutation_sym, (Permutation_cons_append [1; 2] 3).
Defined.

(** C5, as the specification states it, fails: the hundred partial
    fractions 0.1, 0.2, 0.3, 0.0, ..., 0.0 and the same fractions with the
    first and the third exchanged reduce to different floats. *)
Lemma process_in_circle_points_order_dependent :
  Permutation fractions_a fractions_b /\
  process_in_circle_points Notebook.MAP_INSTANCES (map VFloat fractions_a)
  <> process_in_circle_points Notebook.MAP_INSTANCES (map VFloat fractions_b).
Proof.
  split.
  - unfold fractions_a, fractions_b.
    apply (Permutation_app_tail (repeat zero 97)
             (Permutation_rev [ratio 1 10; ratio 2 10; ratio 3 10])).
  - vm_compute. discriminate.
Qed.

(** *** Rounding never crosses a representable float from above *)

Lemma shr_1_lower (mrs : shr_record) (K : Z) :
  2 * K <= shr_m mrs -> K <= shr_m (shr_1 mrs).
Proof.
  destruct mrs as [m r s]. cbn [shr_m].
  destruct m as [| [p | p |] | [p | p |]]; destruct r, s;
    cbn [shr_1 shr_m orb]; lia.
Qed.

Lemma shr_iter_lower (n : nat) (mrs : shr_record) (K : Z) :
  K * 2 ^ Z.of_nat n <= shr_m mrs -> K <= shr_m (Nat.iter n shr_1 mrs).
Proof.
  revert K. induction n as [| n IH]; intros K Hle.
  - rewrite Z.mul_1_r in Hle. exact Hle.
  - rewrite Nat.iter_succ.
    rewrite Nat2Z.inj_succ, Z.pow_succ_r in Hle by lia.
    apply shr_1_lower, IH. lia.
Qed.

Lemma shr_lower (mrs : shr_record) (e n K : Z) :
  K * 2 ^ Z.max 0 n <= shr_m mrs -> K <= shr_m (fst (shr mrs e n)).
Proof.
  intros Hle. destruct n as [| p | p]; cbn [shr fst].
  - change (Z.max 0 0) with 0 in *. change (2 ^ 0) with 1 in Hle. lia.
  - rewrite iter_pos_nat. apply shr_iter_lower.
    replace (Z.max 0 (Zpos p)) with (Z.of_nat (Pos.to_nat p)) in Hle by lia.
    exact Hle.
  - replace (Z.max 0 (Zneg p)) with 0 in * by lia. change (2 ^ 0) with 1 in Hle.
    lia.
Qed.

Lemma shr_exponent (mrs : shr_record) (e n : Z) :
  snd (shr mrs e n) = e + Z.max 0 n.
Proof. destruct n; cbn [shr snd]; lia. Qed.

Lemma canonical_mantissa_small mB eB :
  bounded prec emax mB eB = true -> Zpos mB < 2 ^ 53 /\ -1074 <= eB.
Proof.
  intros HB. destruct (bounded_canonical _ _ HB) as [Hc _].
  destruct (Zdigits2_bounds (Zpos mB) ltac:(lia)) as [_ Hhi].
  cbn [Zdigits2] in Hhi.
  assert (Zpos (digits2_pos mB) <= 53 /\ -1074 <= eB) as [Hd He]
    by (revert Hc; unfold fexp, emin, prec, emax; lia).
  split; [| exact He].
  pose proof (Z.pow_le_mono_r 2 (Zpos (digits2_pos mB)) 53 ltac:(lia) ltac:(lia)).
  lia.
Qed.

(** Magnitudes follow values, whichever exponent is the smaller. *)
Lemma magnitude_ge m e mB eB :
  0 < m ->
  Zpos mB * 2 ^ (eB - Z.min e eB) <= m * 2 ^ (e - Z.min e eB) ->
  Zpos (digits2_pos mB) + eB <= Zdigits2 m + e.
Proof.
  intros Hm Hle.
  pose proof (pow2_pos (eB - Z.min e eB) ltac:(lia)).
  assert (H0 : 0 <= Zpos mB * 2 ^ (eB - Z.min e eB)) by nia.
  pose proof (Zdigits2_le _ _ H0 Hle) as Hd.
  rewrite !Zdigits2_shift in Hd by lia.
  cbn [Zdigits2] in Hd. lia.
Qed.

Lemma shr_fexp_lower m e l mB eB :
  0 < m -> bounded prec emax mB eB = true ->
  Zpos mB * 2 ^ (eB - Z.min e eB) <= m * 2 ^ (e - Z.min e eB) ->
  eB <= snd (shr_fexp prec emax m e l) /\
  Zpos mB <= shr_m (fst (shr_fexp prec emax m e l))
             * 2 ^ (snd (shr_fexp prec emax m e l) - eB).
Proof.
  intros Hm HB Hle.
  destruct (bounded_canonical _ _ HB) as [Hc _].
  destruct (canonical_mantissa_small _ _ HB) as [HmB HeB].
  pose proof (magnitude_ge m e mB eB Hm Hle) as Hmag.
  apply fexp_le in Hmag. rewrite Hc in Hmag.
  unfold shr_fexp. rewrite shr_exponent.
  set (t := fexp prec emax (Zdigits2 m + e)) in *.
  set (n := t - e).
  destruct (Z.le_gt_cases n 0) as [Hn | Hn].
  - (* no shift *)
    replace (Z.max 0 n) with 0 by lia. rewrite Z.add_0_r.
    assert (He : eB <= e) by (unfold n in Hn; lia).
    split; [exact He |].
    replace (Z.min e eB) with eB in Hle by lia.
    rewrite Z.sub_diag, Z.mul_1_r in Hle.
    pose proof (shr_lower (shr_record_of_loc m l) e n m) as H.
    replace (Z.max 0 n) with 0 in H by lia.
    rewrite rec_of_loc_m, Z.mul_1_r in H. specialize (H ltac:(lia)).
    pose proof (pow2_pos (e - eB) ltac:(lia)). nia.
  - replace (Z.max 0 n) with n by lia.
    replace (e + n) with t by (unfold n; lia).
    split; [exact Hmag |].
    destruct (Z.eq_dec t eB) as [Ht | Ht].
    + (* the target exponent is that of the bound *)
      rewrite Ht, Z.sub_diag, Z.mul_1_r.
      apply shr_lower. rewrite rec_of_loc_m.
      replace (Z.max 0 n) with (eB - e) by (unfold n; lia).
      replace (Z.min e eB) with e in Hle by (unfold n in Hn; lia).
      rewrite Z.sub_diag, Z.mul_1_r in Hle. exact Hle.
    + (* a higher binade: the mantissa is full *)
      assert (Hd : t = Zdigits2 m + e - 53)
        by (unfold t, fexp, emin, prec, emax in *; lia).
      pose proof (shr_lower (shr_record_of_loc m l) e n (2 ^ 52)) as H.
      rewrite rec_of_loc_m in H.
      replace (Z.max 0 n) with n in H by lia.
      destruct (Zdigits2_bounds m Hm) as [Hlo _].
      assert (Hpow : 2 ^ 52 * 2 ^ n = 2 ^ (Zdigits2 m - 1)).
      { rewrite <- pow2_split by lia. f_equal. unfold n. lia. }
      specialize (H ltac:(lia)).
      pose proof (Z.pow_le_mono_r 2 1 (t - eB) ltac:(lia) ltac:(lia)) as H2.
      change (2 ^ 1) with 2 in H2. change (2 ^ 52) with 4503599627370496 in H.
      change (2 ^ 53) with 9007199254740992 in HmB. nia.
Qed.

(** Rounding never crosses a representable float from above. *)
Lemma binary_round_aux_lower mx ex lx mB eB :
  0 < mx -> bounded prec emax mB eB = true ->
  Zpos mB * 2 ^ (eB - Z.min ex eB) <= mx * 2 ^ (ex - Z.min ex eB) ->
  above (binary_round_aux prec emax false mx ex lx) mB eB.
Proof.
  intros Hm HB Hle. unfold binary_round_aux.
  pose proof (shr_fexp_lower mx ex lx mB eB Hm HB Hle) as [H1 H2].
  destruct (shr_fexp prec emax mx ex lx) as [mrs' e'].
  cbn [fst snd] in H1, H2.
  pose proof (pow2_pos (e' - eB) ltac:(lia)) as Hp.
  assert (H0 : 0 < shr_m mrs') by nia.
  pose proof (round_nearest_even_upper (shr_m mrs') (loc_of_shr_record mrs')
                ltac:(lia)) as Hr.
  set (mr := round_nearest_even (shr_m mrs') (loc_of_shr_record mrs')) in *.
  assert (Hle2 : Zpos mB * 2 ^ (eB - Z.min e' eB) <= mr * 2 ^ (e' - Z.min e' eB)).
  { replace (Z.min e' eB) with eB by lia. rewrite Z.sub_diag, Z.mul_1_r. nia. }
  pose proof (shr_fexp_lower mr e' loc_Exact mB eB ltac:(lia) HB Hle2) as [G1 G2].
  destruct (shr_fexp prec emax mr e' loc_Exact) as [mrs'' e''].
  cbn [fst snd] in G1, G2.
  pose proof (pow2_pos (e'' - eB) ltac:(lia)) as Hp2.
  destruct (shr_m mrs'') as [| m | m] eqn:Em; try nia.
  destruct (e'' <=? emax - prec).
  - right. exists m, e''. repeat split; assumption.
  - left; reflexivity.
Qed.

Lemma above_leb r mB eB :
  above r mB eB -> SFleb (S754_finite false mB eB) r = true.
Proof.
  intros [-> | (m & e & -> & He & Hm)]; [reflexivity |].
  unfold SFleb, SFcompare.
  destruct (Z.compare_spec eB e) as [<- | Hlt | Hgt]; try reflexivity; try lia.
  rewrite Z.sub_diag, Z.mul_1_r in Hm.
  fold (Pos.compare mB m).
  destruct (Pos.compare_spec mB m); try reflexivity; lia.
Qed.

(** The sum of two positive floats stays above a representable bound on
    their exact sum. *)
Lemma SFadd_lower mx ex my ey mB eB :
  bounded prec emax mB eB = true ->
  Z.min ex ey <= eB ->
  Zpos mB * 2 ^ (eB - Z.min ex ey)
    <= Zpos mx * 2 ^ (ex - Z.min ex ey) + Zpos my * 2 ^ (ey - Z.min ex ey) ->
  above (SFadd prec emax (S754_finite false mx ex) (S754_finite false my ey))
        mB eB.
Proof.
  intros HB He Hle. cbn [SFadd cond_Zopp].
  set (ez := Z.min ex ey) in *.
  destruct (shl_align_spec mx ex ez) as [_ Hx].
  destruct (shl_align_spec my ey ez) as [_ Hy].
  replace (Z.min ex ez) with ez in Hx by lia.
  replace (Z.min ey ez) with ez in Hy by lia.
  rewrite <- Hx, <- Hy in Hle. clear Hx Hy.
  set (px := fst (shl_align mx ex ez)) in *.
  set (py := fst (shl_align my ey ez)) in *.
  change (Zpos px + Zpos py) with (Zpos (px + py)) in *.
  cbn [binary_normalize]. unfold binary_round.
  set (et := fexp prec emax (Zpos (digits2_pos (px + py)) + ez)).
  destruct (shl_align_spec (px + py) ez et) as [H1 H2].
  destruct (shl_align (px + py) ez et) as [mz ez']. cbn [fst snd] in H1, H2.
  apply binary_round_aux_lower; [lia | assumption |].
  replace (Z.min ez' eB) with ez' by lia.
  rewrite Z.sub_diag, Z.mul_1_r, H2, H1.
  replace (eB - Z.min ez et) with ((eB - ez) + (ez - Z.min ez et)) by lia.
  rewrite pow2_split by lia.
  pose proof (pow2_pos (ez - Z.min ez et) ltac:(lia)). nia.
Qed.

(** The quotient of two positive floats stays above a representable bound
    on their exact quotient. *)
Lemma SFdiv_lower mx ex my ey mB eB :
  bounded prec emax mB eB = true ->
  let e' := Z.min (fexp prec emax (Zpos (digits2_pos mx) + ex
                                   - (Zpos (digits2_pos my) + ey)))
                  (ex - ey) in
  (e' <= eB ->
   Zpos mB * 2 ^ (eB - e') * Zpos my <= Zpos mx * 2 ^ (ex - ey - e')) ->
  above (SFdiv prec emax (S754_finite false mx ex) (S754_finite false my ey))
        mB eB.
Proof.
  intros HB e' Hle.
  destruct (canonical_mantissa_small _ _ HB) as [HmB HeB].
  cbn [SFdiv xorb]. unfold SFdiv_core_binary.
  cbn [Zdigits2]. fold e'.
  set (s := ex - ey - e') in *.
  assert (Hs : 0 <= s) by (unfold s, e'; lia).
  set (m' := match s with Z0 => Zpos mx | Zpos _ => Z.shiftl (Zpos mx) s
                     | Zneg _ => 0 end).
  assert (Hm' : m' = Zpos mx * 2 ^ s).
  { unfold m'. destruct s as [| p | p] eqn:Es; try lia.
    rewrite Z.shiftl_mul_pow2 by lia. reflexivity. }
  pose proof (pow2_pos s Hs) as Hps.
  pose proof (Z_div_mod m' (Zpos my) ltac:(lia)) as Hdiv.
  destruct (Z.div_eucl m' (Zpos my)) as [q r]. destruct Hdiv as [Hq Hr].
  destruct (Z.le_gt_cases e' eB) as [He | He].
  - (* the bound lies on the quotient's grid *)
    specialize (Hle He).
    pose proof (pow2_pos (eB - e') ltac:(lia)) as Hp.
    assert (Hqb : Zpos mB * 2 ^ (eB - e') <= q) by nia.
    apply binary_round_aux_lower; [nia | assumption |].
    replace (Z.min e' eB) with e' by lia.
    rewrite Z.sub_diag, Z.mul_1_r. exact Hqb.
  - (* a higher binade: the quotient has a full mantissa *)
    clear Hle.
    set (d1 := Zpos (digits2_pos mx)) in *.
    set (d2 := Zpos (digits2_pos my)) in *.
    assert (HE : e' <= d1 + ex - (d2 + ey) - 53)
      by (unfold e', fexp, emin, prec, emax in *; lia).
    destruct (Zdigits2_bounds (Zpos mx) ltac:(lia)) as [Hx1 _].
    destruct (Zdigits2_bounds (Zpos my) ltac:(lia)) as [_ Hy2].
    cbn [Zdigits2] in Hx1, Hy2. fold d1 in Hx1. fold d2 in Hy2.
    assert (Hq52 : 2 ^ 52 <= q).
    { assert (Hk : 0 <= d1 - 1 + s - d2 - 52) by (unfold s; lia).
      assert (H1 : 2 ^ 52 * 2 ^ d2 * 2 ^ (d1 - 1 + s - d2 - 52)
                   = 2 ^ (d1 - 1) * 2 ^ s).
      { rewrite <- !pow2_split by (unfold d1, d2 in *; lia).
        f_equal. lia. }
      pose proof (pow2_pos (d1 - 1 + s - d2 - 52) Hk) as Hpk.
      pose proof (pow2_pos d2 ltac:(unfold d2; lia)) as Hpd.
      assert (H2 : 2 ^ 52 * 2 ^ d2 <= m').
      { rewrite Hm'. nia. }
      change (2 ^ 52) with 4503599627370496 in *. nia. }
    apply binary_round_aux_lower;
      [change (2 ^ 52) with 4503599627370496 in Hq52; lia | assumption |].
    replace (Z.min e' eB) with eB by lia.
    rewrite Z.sub_diag, Z.mul_1_r.
    pose proof (Z.pow_le_mono_r 2 1 (e' - eB) ltac:(lia) ltac:(lia)) as H2.
    change (2 ^ 1) with 2 in H2. change (2 ^ 52) with 4503599627370496 in Hq52.
    change (2 ^ 53) with 9007199254740992 in HmB. nia.
Qed.

(** The product of two positive floats stays above a representable bound
    on their exact product. *)
Lemma SFmul_lower mx ex my ey mB eB :
  bounded prec emax mB eB = true ->
  ex + ey <= eB ->
  Zpos mB * 2 ^ (eB - (ex + ey)) <= Zpos mx * Zpos my ->
  above (SFmul prec emax (S754_finite false mx ex) (S754_finite false my ey))
        mB eB.
Proof.
  intros HB He Hle. cbn [SFmul xorb].
  apply binary_round_aux_lower; [lia | assumption |].
  replace (Z.min (ex + ey) eB) with (ex + ey) by lia.
  rewrite Z.sub_diag, Z.mul_1_r. exact Hle.
Qed.

Lemma below_at_most r mB eB X g :
  below r mB eB -> eB <= g -> Zpos mB = X * 2 ^ (g - eB) -> at_most r X g.
Proof.
  intros [-> | (m & e & -> & He & Hm)] HeB HX; [left; reflexivity | right].
  exists m, e. repeat split; try lia.
  rewrite HX, <- Z.mul_assoc, <- pow2_split in Hm by lia.
  replace (g - eB + (eB - e)) with (g - e) in Hm by lia. exact Hm.
Qed.

Lemma above_at_least r mB eB X Y g :
  above r mB eB -> at_most r Y g ->
  0 < X -> eB <= g -> Zpos mB = X * 2 ^ (g - eB) -> at_least r X g.
Proof.
  intros Ha Hfin HXpos HeB HX.
  destruct Ha as [-> | (m & e & -> & He & Hm)].
  - destruct Hfin as [H | (? & ? & H & _)]; discriminate H.
  - assert (Heg : e <= g).
    { destruct Hfin as [H | (? & ? & H & ? & _)]; [discriminate H |].
      injection H as <- <-; assumption. }
    exists m, e. repeat split; try assumption.
    rewrite HX in Hm.
    replace (g - eB) with ((g - e) + (e - eB)) in Hm by lia.
    rewrite pow2_split in Hm by lia.
    pose proof (pow2_pos (e - eB) ltac:(lia)).
    pose proof (pow2_pos (g - e) ltac:(lia)). nia.
Qed.

(** *** A constant sequence, between two coarser floats

    The float [v = m * 2^e] lies between [L * 2^g] and [H * 2^g], its
    neighbours with [b] bits fewer.  Their multiples up to [2^b] are
    representable, and rounding never crosses them. *)
Section Tolerance.

Variable m : positive.
Variables e b : Z.
Hypothesis Hv : bounded prec emax m e = true.
Hypothesis Hb : 1 <= b <= 52.
Hypothesis Hg : e + b + 2 <= 971.

Let g := e + b.
Let L := Zpos m / 2 ^ b.
Let H := L + 1.
Let v := S754_finite false m e.

Lemma coarse_bounds : 0 <= L /\ L * 2 ^ b <= Zpos m < H * 2 ^ b /\ -1074 <= e.
Proof.
  pose proof (pow2_pos b ltac:(lia)) as Hp.
  pose proof (Z.div_mod (Zpos m) (2 ^ b) ltac:(lia)) as Hd.
  pose proof (Z.mod_pos_bound (Zpos m) (2 ^ b) Hp) as Hr.
  destruct (canonical_mantissa_small _ _ Hv) as [_ He].
  unfold H, L. repeat split; nia || lia.
Qed.

Lemma coarse_multiple k : 0 <= k < 2 ^ b -> 0 <= k * H < 2 ^ 53.
Proof.
  intros Hk. destruct coarse_bounds as (HL & [Hlo Hhi] & _).
  destruct (canonical_mantissa_small _ _ Hv) as [Hm _].
  pose proof (pow2_pos b ltac:(lia)) as Hp.
  pose proof (pow2_pos (53 - b) ltac:(lia)) as Hq.
  assert (Hs : 2 ^ b * 2 ^ (53 - b) = 2 ^ 53)
    by (rewrite <- pow2_split by lia; f_equal; lia).
  assert (HH : H <= 2 ^ (53 - b)).
  { unfold H. assert (L < 2 ^ (53 - b)); [| lia].
    unfold L. apply Z.div_lt_upper_bound; lia. }
  split; [unfold H; nia |]. nia.
Qed.

Lemma v_exponent_le X :
  0 < X < 2 ^ 53 -> Zpos m <= X * 2 ^ b ->
  e <= fexp prec emax (Zdigits2 X + g).
Proof.
  intros HX Hm.
  destruct (bounded_canonical _ _ Hv) as [Hc _]. rewrite <- Hc at 1.
  apply fexp_le.
  pose proof (Zdigits2_le (Zpos m) (X * 2 ^ b) ltac:(lia) Hm) as Hd.
  rewrite Zdigits2_shift in Hd by lia. cbn [Zdigits2] in Hd.
  unfold g. lia.
Qed.

Lemma v_at_most : at_most v H g.
Proof.
  destruct coarse_bounds as (_ & [_ Hhi] & _).
  right. exists m, e. split; [reflexivity |]. unfold g.
  split; [lia |]. replace (e + b - e) with b by lia. lia.
Qed.

Lemma v_at_least : at_least v L g.
Proof.
  destruct coarse_bounds as (_ & [Hlo _] & _).
  exists m, e. split; [reflexivity |]. unfold g.
  split; [lia |]. replace (e + b - e) with b by lia. lia.
Qed.

(** One more copy of [v] raises the upper bound on the sum by [H]. *)
Lemma add_v_at_most s k :
  0 <= k -> k + 1 < 2 ^ b -> at_most s (k * H) g ->
  at_most (fadd s v) ((k + 1) * H) g.
Proof.
  intros Hk Hk1 Hs.
  destruct coarse_bounds as (HL & [Hlo Hhi] & He).
  pose proof (pow2_pos b ltac:(lia)) as Hpb.
  destruct Hs as [-> | (ms & es & -> & Hes & Hms)].
  - right. exists m, e. split; [reflexivity |]. unfold g.
    split; [lia |]. replace (e + b - e) with b by lia. unfold H in *. nia.
  - pose proof (coarse_multiple (k + 1) ltac:(lia)) as HX.
    assert (HX0 : 0 < (k + 1) * H) by (unfold H; nia).
    destruct (dyadic_finite ((k + 1) * H) g ltac:(lia) ltac:(unfold g; lia))
      as (_ & HB & HmB & HeB).
    pose proof (v_exponent_le ((k + 1) * H) ltac:(lia) ltac:(unfold H in *; nia))
      as Hev.
    set (eB := fexp prec emax (Zdigits2 ((k + 1) * H) + g)) in *.
    set (mB := Z.to_pos ((k + 1) * H * 2 ^ (g - eB))) in *.
    apply below_at_most with mB eB; [| assumption | assumption].
    unfold fadd, v. apply SFadd_upper; [assumption | lia |].
    set (ez := Z.min es e).
    assert (Hez : ez <= es /\ ez <= e) by (unfold ez; lia).
    rewrite HmB, <- Z.mul_assoc, <- pow2_split by lia.
    replace (g - eB + (eB - ez)) with (g - ez) by lia.
    assert (H1 : Zpos ms * 2 ^ (es - ez) <= k * H * 2 ^ (g - ez)).
    { replace (g - ez) with ((g - es) + (es - ez)) by lia.
      rewrite pow2_split by lia.
      pose proof (pow2_pos (es - ez) ltac:(lia)). nia. }
    assert (H2 : Zpos m * 2 ^ (e - ez) <= H * 2 ^ (g - ez)).
    { replace (g - ez) with (b + (e - ez)) by (unfold g; lia).
      rewrite pow2_split by lia.
      pose proof (pow2_pos (e - ez) ltac:(lia)). nia. }
    nia.
Qed.

(** One more copy of [v] raises the lower bound on the sum by [L]. *)
Lemma add_v_at_least s k :
  0 < L -> 1 <= k -> k + 1 < 2 ^ b ->
  at_most s (k * H) g -> at_least s (k * L) g ->
  at_least (fadd s v) ((k + 1) * L) g.
Proof.
  intros HLpos Hk Hk1 Hup (ms & es & -> & Hes & Hms).
  destruct coarse_bounds as (HL & [Hlo Hhi] & He).
  pose proof (pow2_pos b ltac:(lia)) as Hpb.
  pose proof (add_v_at_most _ k ltac:(lia) Hk1 Hup) as Hup'.
  pose proof (coarse_multiple (k + 1) ltac:(lia)) as HX.
  assert (HX0 : 0 < (k + 1) * L < 2 ^ 53) by (unfold H in *; nia).
  destruct (dyadic_finite ((k + 1) * L) g HX0 ltac:(unfold g; lia))
    as (_ & HB & HmB & HeB).
  pose proof (v_exponent_le ((k + 1) * L) HX0 ltac:(unfold H in *; nia)) as Hev.
  set (eB := fexp prec emax (Zdigits2 ((k + 1) * L) + g)) in *.
  set (mB := Z.to_pos ((k + 1) * L * 2 ^ (g - eB))) in *.
  apply above_at_least with mB eB ((k + 1) * H);
    [| assumption | lia | assumption | assumption].
  unfold fadd, v. apply SFadd_lower; [assumption | lia |].
  set (ez := Z.min es e).
  assert (Hez : ez <= es /\ ez <= e) by (unfold ez; lia).
  rewrite HmB, <- Z.mul_assoc, <- pow2_split by lia.
  replace (g - eB + (eB - ez)) with (g - ez) by lia.
  assert (H1 : k * L * 2 ^ (g - ez) <= Zpos ms * 2 ^ (es - ez)).
  { replace (g - ez) with ((g - es) + (es - ez)) by lia.
    rewrite pow2_split by lia.
    pose proof (pow2_pos (es - ez) ltac:(lia)). nia. }
  assert (H2 : L * 2 ^ (g - ez) <= Zpos m * 2 ^ (e - ez)).
  { replace (g - ez) with (b + (e - ez)) by (unfold g; lia).
    rewrite pow2_split by lia.
    pose proof (pow2_pos (e - ez) ltac:(lia)). nia. }
  nia.
Qed.

Lemma fold_v_bounds n : forall s k,
  1 <= k -> k + Z.of_nat n < 2 ^ b ->
  at_most s (k * H) g -> (0 < L -> at_least s (k * L) g) ->
  at_most (fold_left fadd (repeat v n) s) ((k + Z.of_nat n) * H) g /\
  (0 < L -> at_least (fold_left fadd (repeat v n) s) ((k + Z.of_nat n) * L) g).
Proof.
  induction n as [| n IH]; intros s k Hk Hkn Hup Hlo.
  - cbn [repeat fold_left]. rewrite Z.add_0_r. split; assumption.
  - cbn [repeat fold_left].
    replace (k + Z.of_nat (S n)) with ((k + 1) + Z.of_nat n) by lia.
    apply IH; try lia.
    + apply add_v_at_most; (assumption || lia).
    + intros HL. apply add_v_at_least; try assumption; try lia. auto.
Qed.

(** The sum of [N] copies of [v] lies between [N * L * 2^g] and
    [N * H * 2^g]. *)
Lemma float_sum_v_bounds N :
  0 < N < 2 ^ b ->
  at_most (float_sum (repeat v (Z.to_nat N))) (N * H) g /\
  (0 < L -> at_least (float_sum (repeat v (Z.to_nat N))) (N * L) g).
Proof.
  intros HN. destruct (Z.to_nat N) as [| n] eqn:En; [lia |].
  unfold float_sum. cbn [repeat fold_left].
  change (fadd zero (S754_finite false m e)) with v.
  replace N with (1 + Z.of_nat n) by lia.
  apply fold_v_bounds; try lia.
  - rewrite Z.mul_1_l. apply v_at_most.
  - intros _. rewrite Z.mul_1_l. apply v_at_least.
Qed.

(** Dividing such a sum by [N] gives a float between [L * 2^g] and
    [H * 2^g]. *)
Lemma divide_v_sum N s :
  0 < N < 2 ^ b ->
  at_most s (N * H) g -> (0 < L -> at_least s (N * L) g) ->
  (fdiv s (dyadic N 0) = S754_zero false \/
   exists mq eq, fdiv s (dyadic N 0) = S754_finite false mq eq /\
     eq <= fexp prec emax (Zdigits2 H + g) /\
     Zpos mq <= H * 2 ^ (g - eq)) /\
  (0 < L -> at_least (fdiv s (dyadic N 0)) L g).
Proof.
  intros HN Hup Hlo.
  destruct coarse_bounds as (HL & [Hlo' Hhi'] & He).
  pose proof (Z.pow_le_mono_r 2 b 52 ltac:(lia) ltac:(lia)) as Hb52.
  change (2 ^ 52) with 4503599627370496 in Hb52.
  destruct (dyadic_finite N 0 ltac:(lia) ltac:(lia)) as (EN & HBN & HmN & HeN).
  pose proof (coarse_multiple 1 ltac:(lia)) as HH. rewrite Z.mul_1_l in HH.
  assert (HH0 : 0 < H) by (unfold H; lia).
  destruct (dyadic_finite H g ltac:(lia) ltac:(unfold g; lia))
    as (_ & HBH & HmH & HeH).
  set (eN := fexp prec emax (Zdigits2 N + 0)) in *.
  set (mN := Z.to_pos (N * 2 ^ (0 - eN))) in *.
  set (eH := fexp prec emax (Zdigits2 H + g)) in *.
  set (mH := Z.to_pos (H * 2 ^ (g - eH))) in *.
  rewrite EN.
  destruct Hup as [-> | (ms & es & -> & Hes & Hms)].
  { split; [left; reflexivity |]. intros HLpos.
    destruct (Hlo HLpos) as (? & ? & E & _). discriminate E. }
  assert (HdN : Zpos (digits2_pos mN) + eN = Zdigits2 N).
  { change (Zpos (digits2_pos mN)) with (Zdigits2 (Zpos mN)).
    rewrite HmN, Zdigits2_shift by lia. lia. }
  assert (Hds : Zpos (digits2_pos ms) + es <= Zdigits2 N + Zdigits2 H + g).
  { pose proof (Zdigits2_le (Zpos ms) (N * H * 2 ^ (g - es)) ltac:(lia) Hms) as Hd.
    rewrite Zdigits2_shift in Hd by (lia || nia). cbn [Zdigits2] in Hd.
    pose proof (Zdigits2_mul N H ltac:(lia) HH0). lia. }
  set (e' := Z.min (fexp prec emax (Zpos (digits2_pos ms) + es
                                    - (Zpos (digits2_pos mN) + eN)))
                   (es - eN)).
  assert (He' : e' <= eH /\ e' <= es - eN).
  { assert (fexp prec emax (Zpos (digits2_pos ms) + es
                            - (Zpos (digits2_pos mN) + eN)) <= eH)
      by (apply fexp_le; lia).
    unfold e'. lia. }
  assert (Hbelow : below (fdiv (S754_finite false ms es) (S754_finite false mN eN))
                         mH eH).
  { unfold fdiv. apply SFdiv_upper; [assumption | fold e'; lia |]. fold e'.
    rewrite HmH, HmN.
    replace (H * 2 ^ (g - eH) * 2 ^ (eH - e') * (N * 2 ^ (0 - eN)))
      with (N * H * (2 ^ (g - eH) * 2 ^ (eH - e') * 2 ^ (0 - eN))) by ring.
    rewrite <- !pow2_split by lia.
    replace (g - eH + (eH - e') + (0 - eN)) with ((g - es) + (es - eN - e')) by lia.
    rewrite pow2_split by lia.
    pose proof (pow2_pos (es - eN - e') ltac:(lia)). nia. }
  pose proof (below_at_most _ _ _ H g Hbelow HeH HmH) as Hq.
  split.
  - destruct Hbelow as [Hz | (mq & eq & Eq & Heq & _)]; [left; exact Hz | right].
    exists mq, eq. split; [exact Eq |]. split; [exact Heq |].
    destruct Hq as [Hq | (mq' & eq' & E' & _ & Hmq')];
      [rewrite Eq in Hq; discriminate Hq |].
    rewrite Eq in E'. injection E' as <- <-. exact Hmq'.
  - intros HLpos. specialize (Hlo HLpos).
    destruct Hlo as (ms' & es' & E & _ & Hms'). injection E as <- <-.
    destruct (dyadic_finite L g ltac:(unfold H in *; lia) ltac:(unfold g; lia))
      as (_ & HBL & HmL & HeL).
    set (eL := fexp prec emax (Zdigits2 L + g)) in *.
    set (mL := Z.to_pos (L * 2 ^ (g - eL))) in *.
    apply (above_at_least _ mL eL L H g); try assumption.
    unfold fdiv. apply SFdiv_lower; [assumption |]. fold e'. intros HeL'.
    rewrite HmL, HmN.
    replace (L * 2 ^ (g - eL) * 2 ^ (eL - e') * (N * 2 ^ (0 - eN)))
      with (N * L * (2 ^ (g - eL) * 2 ^ (eL - e') * 2 ^ (0 - eN))) by ring.
    rewrite <- !pow2_split by lia.
    replace (g - eL + (eL - e') + (0 - eN)) with ((g - es) + (es - eN - e')) by lia.
    rewrite pow2_split by lia.
    pose proof (pow2_pos (es - eN - e') ltac:(lia)). nia.
Qed.

(** Four times a float between [L * 2^g] and [H * 2^g] lies between the
    floats [L * 2^(g+2)] and [H * 2^(g+2)]. *)
Lemma times_four_between q :
  (q = S754_zero false \/
   exists mq eq, q = S754_finite false mq eq /\
     eq <= fexp prec emax (Zdigits2 H + g) /\
     Zpos mq <= H * 2 ^ (g - eq)) ->
  (0 < L -> at_least q L g) ->
  fle (dyadic L (g + 2)) (fmul four q) = true /\
  fle (fmul four q) (dyadic H (g + 2)) = true.
Proof.
  intros Hup Hlo.
  destruct coarse_bounds as (HL & _ & He).
  pose proof (Z.pow_le_mono_r 2 1 b ltac:(lia) ltac:(lia)) as Hb2.
  change (2 ^ 1) with 2 in Hb2.
  pose proof (coarse_multiple 1 ltac:(lia)) as HH. rewrite Z.mul_1_l in HH.
  assert (HH0 : 0 < H) by (unfold H; lia).
  destruct (dyadic_finite H (g + 2) ltac:(lia) ltac:(unfold g; lia))
    as (E4 & HB4 & Hm4 & He4).
  set (e4 := fexp prec emax (Zdigits2 H + (g + 2))) in *.
  set (m4 := Z.to_pos (H * 2 ^ (g + 2 - e4))) in *.
  assert (Hmono : fexp prec emax (Zdigits2 H + g) <= e4)
    by (apply fexp_le; lia).
  destruct (dyadic_finite H g ltac:(lia) ltac:(unfold g; lia))
    as (_ & _ & _ & HeHg).
  assert (Hbelow : below (fmul four q) m4 e4).
  { destruct Hup as [-> | (mq & eq & -> & Heq & Hmq)]; [left; reflexivity |].
    rewrite four_finite. unfold fmul.
    apply SFmul_upper; [assumption | lia |].
    rewrite Hm4, <- Z.mul_assoc, <- pow2_split by lia.
    replace (g + 2 - e4 + (e4 - (-50 + eq))) with (52 + (g - eq)) by lia.
    rewrite pow2_split by lia. change (2 ^ 52) with 4503599627370496. nia. }
  rewrite E4. destruct (below_leb _ _ _ Hbelow) as [Hz Hle].
  split; [| exact Hle].
  destruct (Z.eq_dec L 0) as [HL0 | HL0].
  - rewrite HL0. exact Hz.
  - destruct (Hlo ltac:(lia)) as (mq & eq & -> & Heq & Hmq).
    destruct Hup as [Hq | (mq' & eq' & E & Heq' & _)]; [discriminate Hq |].
    injection E as <- <-.
    destruct (dyadic_finite L (g + 2) ltac:(unfold H in *; lia)
                ltac:(unfold g; lia)) as (-> & HBL & HmL & HeL).
    set (eL := fexp prec emax (Zdigits2 L + (g + 2))) in *.
    set (mL := Z.to_pos (L * 2 ^ (g + 2 - eL))) in *.
    assert (HdH : Zdigits2 H <= Zdigits2 L + 1).
    { pose proof (Zdigits2_le H (L * 2 ^ 1) ltac:(lia) ltac:(unfold H; lia)) as Hd.
      rewrite Zdigits2_shift in Hd by lia. exact Hd. }
    assert (HeqL : eq <= eL).
    { assert (fexp prec emax (Zdigits2 H + g) <= eL) by (apply fexp_le; lia).
      lia. }
    apply above_leb. rewrite four_finite. unfold fmul.
    apply SFmul_lower; [assumption | lia |].
    rewrite HmL, <- Z.mul_assoc, <- pow2_split by lia.
    replace (g + 2 - eL + (eL - (-50 + eq))) with (52 + (g - eq)) by lia.
    rewrite pow2_split by lia. change (2 ^ 52) with 4503599627370496. nia.
Qed.

(** [N] copies of [v] reduce to a float that, like [4 * v] itself, lies
    between four times the neighbours of [v]. *)
Lemma process_constant_between N :
  0 < N < 2 ^ b ->
  exists r,
    process_in_circle_points N (map VFloat (repeat v (Z.to_nat N)))
    = Ok (VFloat r) /\
    fle (quadruple_below b m e) r = true /\
    fle r (quadruple_above b m e) = true /\
    fle (quadruple_below b m e) (fmul four v) = true /\
    fle (fmul four v) (quadruple_above b m e) = true.
Proof.
  intros HN.
  pose proof (Z.pow_le_mono_r 2 b 52 ltac:(lia) ltac:(lia)) as Hb52.
  change (2 ^ 52) with 4503599627370496 in Hb52.
  pose proof (Z.pow_le_mono_r 2 1 b ltac:(lia) ltac:(lia)) as Hb2.
  change (2 ^ 1) with 2 in Hb2.
  assert (HN53 : 0 < N < 2 ^ 53) by lia.
  destruct (float_sum_v_bounds N HN) as [Hup Hlo].
  destruct (divide_v_sum N _ HN Hup Hlo) as [Hq Hql].
  destruct (times_four_between _ Hq Hql) as [Hr1 Hr2].
  assert (Hvq : v = S754_zero false \/
    exists mq eq, v = S754_finite false mq eq /\
      eq <= fexp prec emax (Zdigits2 H + g) /\
      Zpos mq <= H * 2 ^ (g - eq)).
  { right. exists m, e. split; [reflexivity |].
    destruct coarse_bounds as (HL & [_ Hhi] & _).
    pose proof (coarse_multiple 1 ltac:(lia)) as HH. rewrite Z.mul_1_l in HH.
    split.
    - apply v_exponent_le; lia.
    - unfold g. replace (e + b - e) with b by lia. lia. }
  destruct (times_four_between v Hvq (fun _ => v_at_least)) as [Hv1 Hv2].
  destruct (Z.to_nat N) as [| k] eqn:Ek; [lia |]. cbn [repeat] in *.
  unfold v at 1.
  rewrite process_floats, float_of_int_small by assumption. cbn [bind].
  unfold float_truediv. rewrite dyadic_not_zero by assumption. cbn [bind].
  eexists. split; [reflexivity |].
  unfold quadruple_below, quadruple_above. repeat split; assumption.
Qed.

End Tolerance.

Lemma process_constant_exact N n g :
  0 < N < 2 ^ 53 -> 0 <= n -> N * n < 2 ^ 53 -> -1074 <= g <= 971 ->
  process_in_circle_points N (map VFloat (repeat (dyadic n g) (Z.to_nat N)))
  = Ok (VFloat (fmul four (dyadic n g))).
Proof.
  intros HN Hn HNn Hg.
  assert (Hs : float_sum (repeat (dyadic n g) (Z.to_nat N)) = dyadic (N * n) g).
  { replace (repeat (dyadic n g) (Z.to_nat N))
      with (dyadics g (repeat n (Z.to_nat N)))
      by (unfold dyadics; rewrite map_repeat; reflexivity).
    rewrite float_sum_dyadics; rewrite ?total_repeat, ?Z2Nat.id;
      try lia; try reflexivity.
    apply Forall_forall. intros x Hx. apply repeat_spec in Hx. lia. }
  destruct (Z.to_nat N) as [| k] eqn:Ek; [lia |]. cbn [repeat] in *.
  rewrite process_floats, float_of_int_small, Hs by assumption. cbn [bind].
  unfold float_truediv. rewrite dyadic_not_zero by assumption. cbn [bind].
  do 3 f_equal.
  destruct (Z.eq_dec n 0) as [-> | Hn0].
  - rewrite Z.mul_0_r.
    destruct (dyadic_finite N 0 HN ltac:(lia)) as (-> & _). reflexivity.
  - apply div_dyadic; lia.
Qed.

(** C6, as the code has it: a constant sequence of [N = MAP_INSTANCES]
    copies of [v] reduces to exactly [4 * v] when no partial sum rounds,
    as for [v = n * 2^g] with [N * n < 2^53]; and for every positive
    float [v = m * 2^e], as long as nothing overflows, to a float within
    [2^b] units in the last place of [4 * v], where [N < 2^b]: the result
    and [4 * v] both lie between [quadruple_below b m e] and
    [quadruple_above b m e]. *)
Theorem process_in_circle_points_constant N :
  0 < N < 2 ^ 53 ->
  (forall n g,
     0 <= n -> N * n < 2 ^ 53 -> -1074 <= g <= 971 ->
     process_in_circle_points N (map VFloat (repeat (dyadic n g) (Z.to_nat N)))
     = Ok (VFloat (fmul four (dyadic n g)))) /\
  (forall m e b,
     bounded prec emax m e = true -> 1 <= b <= 52 -> N < 2 ^ b ->
     e + b + 2 <= 971 ->
     exists r,
       process_in_circle_points N
         (map VFloat (repeat (S754_finite false m e) (Z.to_nat N)))
       = Ok (VFloat r) /\
       fle (quadruple_below b m e) r = true /\
       fle r (quadruple_above b m e) = true /\
       fle (quadruple_below b m e) (fmul four (S754_finite false m e)) = true /\
       fle (fmul four (S754_finite false m e)) (quadruple_above b m e) = true).
Proof.
  intros HN. split.
  - intros n g Hn HNn Hg. apply process_constant_exact; assumption.
  - intros m e b Hv Hb HNb Hg. apply process_constant_between; (assumption || lia).
Qed.

Lemma process_in_circle_points_constant_witness :
  process_in_circle_points Notebook.MAP_INSTANCES
    (map VFloat (repeat (dyadic 3 (-2)) 100))
  = Ok (VFloat (dyadic 3 0)) /\
  exists r,
    process_in_circle_points Notebook.MAP_INSTANCES
      (map VFloat (repeat (S754_finite false 7205759403792794 (-56)) 100))
    = Ok (VFloat r) /\
    fle (quadruple_below 7 7205759403792794 (-56)) r = true /\
    fle r (quadruple_above 7 7205759403792794 (-56)) = true /\
    fle (quadruple_below 7 7205759403792794 (-56))
        (fmul four (S754_finite false 7205759403792794 (-56))) = true /\
    fle (fmul four (S754_finite false 7205759403792794 (-56)))
        (quadruple_above 7 7205759403792794 (-56)) = true.
Proof.
  destruct (process_in_circle_points_constant Notebook.MAP_INSTANCES
              ltac:(unfold Notebook.MAP_INSTANCES; lia)) as [Hexact Hnear].
  split.
  - apply (Hexact 3 (-2)); unfold Notebook.MAP_INSTANCES; lia.
  - apply (Hnear 7205759403792794%positive (-56) 7);
      unfold Notebook.MAP_INSTANCES; (reflexivity || lia).
Defined.

(** C6, as the specification states it, fails twice over: a hundred
    copies of 0.1 reduce to 0.3999999999999992, not to 4 * 0.1; and a
    hundred copies of 1e307 reduce to infinity, while 4 * 1e307 is
    finite. *)
Lemma process_in_circle_points_constant_rounds :
  process_in_circle_points Notebook.MAP_INSTANCES
    (map VFloat (repeat (ratio 1 10) (Z.to_nat Notebook.MAP_INSTANCES)))
  <> Ok (VFloat (fmul four (ratio 1 10))) /\
  process_in_circle_points Notebook.MAP_INSTANCES
    (map VFloat (repeat huge (Z.to_nat Notebook.MAP_INSTANCES)))
  = Ok (VFloat (S754_infinity false)) /\
  is_infinity (fmul four huge) = false.
Proof.
  split; [vm_compute; discriminate | split; vm_compute; reflexivity].
Qed.

(** ** The whole job *)

Lemma below_one_fraction x :
  below x 4503599627370496 (-52) -> fraction_value x.
Proof.
  intros [-> | (m & e & -> & He & Hm)]; [left; reflexivity | right].
  exists m, e. repeat split; try assumption.
  replace (- e) with (52 + (-52 - e)) by lia.
  rewrite pow2_split by lia. change (2 ^ 52) with 4503599627370496. exact Hm.
Qed.

Lemma add_value_bound s x k :
  below_int s k -> 0 <= k -> k + 1 < 2 ^ 53 -> fraction_value x ->
  below_int (fadd s x) (k + 1).
Proof.
  intros Hs Hk Hk1 [Hz | (mx & ex & -> & Hex & Hmx)].
  - destruct x as [sx | | |]; try discriminate.
    apply below_int_mono with k; [| lia].
    destruct Hs as [-> | (m & e & -> & H)].
    + left. destruct sx; reflexivity.
    + right. exists m, e. split; [reflexivity | exact H].
  - destruct Hs as [-> | (ms & es & -> & Hes & Hms)].
    + right. exists mx, ex. split; [reflexivity |]. split; [lia |].
      pose proof (pow2_pos (- ex) ltac:(lia)). nia.
    + destruct (dyadic_finite (k + 1) 0 ltac:(lia) ltac:(lia))
        as (_ & HB & HmB & HeB).
      pose proof (Zdigits2_le_prec (k + 1) ltac:(lia)) as Hd.
      set (eB := fexp prec emax (Zdigits2 (k + 1) + 0)) in *.
      set (mB := Z.to_pos ((k + 1) * 2 ^ (0 - eB))) in *.
      assert (HeB' : -52 <= eB) by (unfold eB, fexp, emin, prec, emax; lia).
      apply below_to_int with mB eB; [| lia | rewrite HmB; f_equal].
      unfold fadd. apply SFadd_upper; [assumption | lia |].
      set (ez := Z.min es ex).
      assert (Hez : ez <= es /\ ez <= ex) by (unfold ez; lia).
      rewrite HmB, <- Z.mul_assoc, <- pow2_split by lia.
      replace (0 - eB + (eB - ez)) with (- ez) by lia.
      assert (H1 : Zpos ms * 2 ^ (es - ez) <= k * 2 ^ (- ez)).
      { replace (- ez) with (- es + (es - ez)) by lia.
        rewrite pow2_split by lia.
        pose proof (pow2_pos (es - ez) ltac:(lia)). nia. }
      assert (H2 : Zpos mx * 2 ^ (ex - ez) <= 2 ^ (- ez)).
      { replace (- ez) with (- ex + (ex - ez)) by lia.
        rewrite pow2_split by lia.
        pose proof (pow2_pos (ex - ez) ltac:(lia)). nia. }
      lia.
Qed.

Lemma fold_value_bound xs : forall s k,
  Forall fraction_value xs ->
  below_int s k -> 0 <= k -> k + Z.of_nat (length xs) < 2 ^ 53 ->
  below_int (fold_left fadd xs s) (k + Z.of_nat (length xs)).
Proof.
  induction xs as [| x xs IH]; intros s k Hxs Hs Hk Hlen.
  - cbn [fold_left length]. apply below_int_mono with k; [assumption | lia].
  - inversion Hxs as [| ? ? Hx Hxs']; subst.
    cbn [fold_left]. cbn [length] in *.
    replace (k + Z.of_nat (S (length xs)))
      with ((k + 1) + Z.of_nat (length xs)) by lia.
    apply IH; try assumption; try lia.
    apply add_value_bound; try assumption; lia.
Qed.

Lemma process_value_bound N xs :
  0 < N < 2 ^ 53 -> Forall fraction_value xs -> Z.of_nat (length xs) <= N ->
  exists r, process_in_circle_points N (map VFloat xs) = Ok (VFloat r) /\
            below r 4503599627370496 (-50).
Proof.
  intros HN Hxs Hlen. destruct xs as [| x xs].
  - exists zero. split; [| left; reflexivity].
    apply process_empty_positive. lia.
  - rewrite process_floats, float_of_int_small by assumption. cbn [bind].
    unfold float_truediv. rewrite dyadic_not_zero by assumption. cbn [bind].
    eexists; split; [reflexivity |].
    apply times_four_bound, divide_sum_bound; [assumption |].
    apply below_int_mono with (0 + Z.of_nat (length (x :: xs))); [| lia].
    apply fold_value_bound; try assumption; try lia.
    left; reflexivity.
Qed.

Lemma map_tasks_run pow T gen iterdata : forall i,
  0 < T ->
  map_tasks (randomize_points pow T) gen i iterdata
  = Ok (map VFloat (map (task_fraction pow T gen) (seq i (length iterdata)))).
Proof.
  induction iterdata as [| d rest IH]; intros i HT; [reflexivity |].
  cbn [map_tasks length seq map].
  rewrite randomize_points_run by assumption. cbn [fst bind].
  rewrite IH by assumption. reflexivity.
Qed.

Lemma task_fraction_value pow T gen i :
  0 < T -> fraction_value (task_fraction pow T gen i).
Proof.
  intros HT. apply below_one_fraction. unfold task_fraction.
  pose proof (count_in_circle_range pow (drawn_pairs (gen i) (Z.to_nat T))) as Hc.
  rewrite drawn_pairs_length in Hc.
  apply int_truediv_fraction; lia.
Qed.

(** X1: the whole job.  With a positive trial count and a task count between
    1 and 2^53, whatever the tasks' generators draw, the job raises no
    error and its estimate is a float between 0.0 and 4.0. *)
Theorem get_result_bounded pow N T gen :
  0 < N < 2 ^ 53 -> 0 < T ->
  exists r, get_result pow N T gen = Ok (VFloat r) /\
            fle zero r = true /\ fle r four = true.
Proof.
  intros HN HT. unfold get_result, map_reduce.
  rewrite map_tasks_run by assumption. cbn [bind].
  destruct (process_value_bound N
              (map (task_fraction pow T gen) (seq 0 (length (iterdata N)))))
    as (r & Hr & Hb); try assumption.
  - apply Forall_forall. intros x Hx. apply in_map_iff in Hx.
    destruct Hx as (i & <- & _). apply task_fraction_value; assumption.
  - rewrite length_map, length_seq. unfold iterdata.
    rewrite repeat_length. lia.
  - exists r. split; [exact Hr |]. rewrite four_finite.
    apply below_leb; assumption.
Qed.

Lemma get_result_bounded_witness :
  exists r, get_result square 4 3 (fun _ => halves) = Ok (VFloat r) /\
            fle zero r = true /\ fle r four = true.
Proof. apply (get_result_bounded square 4 3 (fun _ => halves)); lia. Defined.

(** The sampler for any trial count, positive or not. *)
Lemma randomize_points_unfold pow T data g :
  randomize_points pow T data g
  = ((q <- truediv (VInt (count_in_circle pow (drawn_pairs g (Z.to_nat T))))
                   (VInt T) ;;
      to_float q),
     {| tape := tape g; cursor := cursor g + 2 * Z.to_nat T |}).
Proof.
  unfold randomize_points, mbind.
  rewrite randomize_loop_run, Z.add_0_l. reflexivity.
Qed.

(** X3: a trial count that is not positive.  The loop body never runs and
    no random number is drawn; zero trials raise [ZeroDivisionError], a
    negative count returns the float -0.0. *)
Theorem randomize_points_no_trials pow T data g :
  T <= 0 ->
  randomize_points pow T data g
  = (if T =? 0 then Raise ZeroDivisionError else Ok (VFloat (S754_zero true)),
     g).
Proof.
  intros HT. rewrite randomize_points_unfold.
  replace (Z.to_nat T) with 0%nat by lia.
  replace (cursor g + 2 * 0)%nat with (cursor g) by lia.
  destruct g as [t c]. cbn [tape cursor].
  destruct T as [| p | p]; try lia; reflexivity.
Qed.

Lemma randomize_points_no_trials_witness :
  randomize_points square 0 VNone halves = (Raise ZeroDivisionError, halves).
Proof. apply (randomize_points_no_trials square 0 VNone halves). lia. Defined.

Lemma ratio_same T : 0 < T -> ratio T T = one.
Proof.
  intros HT. destruct T as [| t | t]; try lia.
  unfold ratio. cbn [exact_of_int]. unfold fdiv. cbn [SFdiv xorb].
  unfold SFdiv_core_binary. cbn [Zdigits2].
  replace (Zpos (digits2_pos t) + 0 - (Zpos (digits2_pos t) + 0)) with 0 by lia.
  change (Z.min (fexp prec emax 0) (0 - 0)) with (-53).
  change (0 - 0 - -53) with 53.
  cbv iota beta.
  rewrite Z.shiftl_mul_pow2 by lia.
  pose proof (Z_div_mod (Zpos t * 2 ^ 53) (Zpos t) ltac:(lia)) as Hdiv.
  destruct (Z.div_eucl (Zpos t * 2 ^ 53) (Zpos t)) as [q r].
  destruct Hdiv as [Hq Hr].
  assert (Hqr : q = 2 ^ 53 /\ r = 0).
  { assert (2 ^ 53 - q = 0) by nia. split; nia. }
  destruct Hqr as [-> ->]. rewrite new_location_zero. reflexivity.
Qed.

Lemma ratio_zero T : 0 < T -> ratio 0 T = zero.
Proof. intros HT. destruct T; try lia. reflexivity. Qed.

Lemma count_in_circle_all pow ps :
  Forall (fun p => in_circle_test pow (fst p) (snd p) = true) ps ->
  count_in_circle pow ps = Z.of_nat (length ps).
Proof.
  induction 1 as [| p ps Hp _ IH]; [reflexivity |].
  rewrite count_in_circle_cons, Hp, IH. cbn [length Z.b2z]. lia.
Qed.

Lemma count_in_circle_none pow ps :
  Forall (fun p => in_circle_test pow (fst p) (snd p) = false) ps ->
  count_in_circle pow ps = 0.
Proof.
  induction 1 as [| p ps Hp _ IH]; [reflexivity |].
  rewrite count_in_circle_cons, Hp, IH. reflexivity.
Qed.

(** X4: the extreme fractions are exact.  When every drawn pair passes the
    test the sampler returns exactly 1.0, when none does exactly 0.0,
    for every positive trial count. *)
Theorem randomize_points_extremes pow T data g :
  0 < T ->
  (Forall (fun p => in_circle_test pow (fst p) (snd p) = true)
          (drawn_pairs g (Z.to_nat T)) ->
   fst (randomize_points pow T data g) = Ok (VFloat one)) /\
  (Forall (fun p => in_circle_test pow (fst p) (snd p) = false)
          (drawn_pairs g (Z.to_nat T)) ->
   fst (randomize_points pow T data g) = Ok (VFloat zero)).
Proof.
  intros HT. rewrite randomize_points_run by assumption. cbn [fst].
  split; intros H.
  - rewrite count_in_circle_all, drawn_pairs_length, Z2Nat.id by (assumption || lia).
    rewrite ratio_same by assumption. reflexivity.
  - rewrite count_in_circle_none by assumption.
    rewrite ratio_zero by assumption. reflexivity.
Qed.

Lemma randomize_points_extremes_witness :
  fst (randomize_points square 7 VNone halves) = Ok (VFloat one).
Proof.
  apply (randomize_points_extremes square 7 VNone halves); [lia |].
  repeat constructor.
Defined.

(** X5: the sampler reads nothing but the next [2 * T] numbers of its
    generator: two generators that agree on them give the same result. *)
Theorem randomize_points_reads_2T pow T data data' g g' :
  (forall i, (i < 2 * Z.to_nat T)%nat ->
             tape g (cursor g + i) = tape g' (cursor g' + i)) ->
  fst (randomize_points pow T data g) = fst (randomize_points pow T data' g').
Proof.
  intros Hagree. rewrite !randomize_points_unfold. cbn [fst].
  replace (drawn_pairs g' (Z.to_nat T)) with (drawn_pairs g (Z.to_nat T));
    [reflexivity |].
  unfold drawn_pairs. apply map_ext_in. intros i Hi.
  apply in_seq in Hi. unfold drawn_pair.
  rewrite (Hagree (2 * i)%nat) by lia.
  replace (cursor g + 2 * i + 1)%nat with (cursor g + (2 * i + 1))%nat by lia.
  replace (cursor g' + 2 * i + 1)%nat with (cursor g' + (2 * i + 1))%nat by lia.
  rewrite (Hagree (2 * i + 1)%nat) by lia. reflexivity.
Qed.

Lemma randomize_points_reads_2T_witness :
  fst (randomize_points square 2 VNone halves)
  = fst (randomize_points square 2 (VInt 0)
           {| tape := fun i => if (i <? 9)%nat then ratio 1 2 else one;
              cursor := 5 |}).
Proof.
  apply (randomize_points_reads_2T square 2 VNone (VInt 0) halves
           {| tape := fun i => if (i <? 9)%nat then ratio 1 2 else one;
              cursor := 5 |}).
  intros i Hi. cbn [tape cursor halves].
  replace (5 + i <? 9)%nat with true; [reflexivity |].
  symmetry. apply Nat.ltb_lt. change (Z.to_nat 2) with 2%nat in Hi. lia.
Defined.

Lemma Zdigits2_pow2 j : 0 <= j -> Zdigits2 (2 ^ j) = j + 1.
Proof.
  intros Hj. replace (2 ^ j) with (1 * 2 ^ j) by lia.
  rewrite Zdigits2_shift by lia. change (Zdigits2 1) with 1. lia.
Qed.

(** A count out of [2^j] trials is the float [c * 2^-j], unrounded. *)
Lemma ratio_pow2 c j :
  0 <= j <= 52 -> 0 <= c <= 2 ^ j -> ratio c (2 ^ j) = dyadic c (- j).
Proof.
  intros Hj Hc.
  pose proof (pow2_pos j ltac:(lia)) as HT.
  pose proof (Z.pow_le_mono_r 2 j 52 ltac:(lia) ltac:(lia)) as H52.
  change (2 ^ 52) with 4503599627370496 in H52.
  destruct (Z.eq_dec c 0) as [-> | Hc0].
  - rewrite ratio_zero by assumption. reflexivity.
  - destruct (dyadic_finite c (- j) ltac:(lia) ltac:(lia))
      as (-> & HB & Hmn & Hen).
    pose proof (Zdigits2_le_prec c ltac:(lia)) as Hdc.
    set (en := fexp prec emax (Zdigits2 c + - j)) in *.
    set (mn := Z.to_pos (c * 2 ^ (- j - en))) in *.
    pose proof (Zdigits2_pow2 j ltac:(lia)) as HdT.
    unfold ratio. destruct (2 ^ j) as [| t | t] eqn:Et; try lia.
    destruct c as [| p | p]; try lia.
    cbn [exact_of_int]. unfold fdiv. cbn [SFdiv xorb].
    unfold SFdiv_core_binary. cbn [Zdigits2] in *. rewrite HdT.
    set (e' := Z.min _ (0 - 0)).
    assert (He' : e' <= en /\ e' <= - j /\ e' <= 0)
      by (unfold e', en, fexp, emin, prec, emax; lia).
    set (s := 0 - 0 - e').
    set (m' := match s with Z0 => _ | Zpos _ => _ | Zneg _ => _ end).
    assert (Hm' : m' = Zpos t * (Zpos p * 2 ^ (- j - e'))).
    { assert (m' = Zpos p * 2 ^ s) as ->.
      { unfold m'. destruct s as [| u | u] eqn:Es; try lia.
        rewrite Z.shiftl_mul_pow2 by lia. reflexivity. }
      rewrite <- Et. replace s with (j + (- j - e')) by (unfold s; lia).
      rewrite pow2_split by lia. ring. }
    pose proof (pow2_pos (- j - e') ltac:(lia)).
    pose proof (Z_div_mod m' (Zpos t) ltac:(lia)) as Hdiv.
    destruct (Z.div_eucl m' (Zpos t)) as [q r]. destruct Hdiv as [Hq Hr].
    assert (Hqr : q = Zpos p * 2 ^ (- j - e') /\ r = 0).
    { rewrite Hm' in Hq. set (Q := Zpos p * 2 ^ (- j - e')) in *.
      assert (Q - q = 0) by nia. split; nia. }
    destruct Hqr as [-> ->]. rewrite new_location_zero.
    apply binary_round_aux_exact'; [assumption | lia |].
    rewrite Hmn, <- Z.mul_assoc, <- pow2_split by lia.
    f_equal. f_equal. lia.
Qed.

Lemma total_bound ns B :
  0 <= B -> Forall (fun n => 0 <= n <= B) ns ->
  0 <= total ns <= Z.of_nat (length ns) * B.
Proof.
  intros HB. induction 1 as [| n ns Hn _ IH]; cbn [total fold_right length].
  - lia.
  - fold (total ns). nia.
Qed.

Lemma process_dyadics_Permutation N g ns ns' :
  -1074 <= g <= 971 ->
  Forall (fun n => 0 <= n) ns -> total ns < 2 ^ 53 ->
  Permutation ns ns' ->
  process_in_circle_points N (map VFloat (dyadics g ns))
  = process_in_circle_points N (map VFloat (dyadics g ns')).
Proof.
  intros Hg Hns Hsum Hperm.
  assert (Hns' : Forall (fun n => 0 <= n) ns')
    by (eapply Permutation_Forall; eassumption).
  pose proof (total_Permutation _ _ Hperm) as Ht.
  pose proof (float_sum_dyadics g ns Hg Hns Hsum) as Hs.
  pose proof (float_sum_dyadics g ns' Hg Hns' ltac:(lia)) as Hs'.
  destruct ns as [| n ns]; destruct ns' as [| n' ns'].
  - reflexivity.
  - apply Permutation_nil in Hperm. discriminate.
  - apply Permutation_sym, Permutation_nil in Hperm. discriminate.
  - change (dyadics g (n :: ns)) with (dyadic n g :: dyadics g ns) in *.
    change (dyadics g (n' :: ns')) with (dyadic n' g :: dyadics g ns') in *.
    rewrite !process_floats, Hs, Hs', Ht. reflexivity.
Qed.

(** X2: with a power of two for the trial count no partial sum rounds, and
    the job's estimate does not depend on which task gets which
    generator: for [2^j] trials per task and [N * 2^j < 2^53], exchanging
    the generators among the [N] tasks leaves the estimate unchanged. *)
Theorem get_result_task_order pow N j gen gen' :
  0 < N -> 0 <= j -> N * 2 ^ j < 2 ^ 53 ->
  Permutation (map gen (seq 0 (Z.to_nat N))) (map gen' (seq 0 (Z.to_nat N))) ->
  get_result pow N (2 ^ j) gen = get_result pow N (2 ^ j) gen'.
Proof.
  intros HN Hj Hsmall Hperm.
  pose proof (pow2_pos j Hj) as HT.
  assert (Hj52 : j <= 52).
  { assert (j < 53); [| lia]. apply (Z.pow_lt_mono_r_iff 2); nia. }
  unfold get_result, map_reduce. rewrite !map_tasks_run by assumption.
  cbn [bind]. unfold iterdata. rewrite repeat_length.
  set (cnt := fun g => count_in_circle pow (drawn_pairs g (Z.to_nat (2 ^ j)))).
  assert (Hcnt : forall g, 0 <= cnt g <= 2 ^ j).
  { intros g. unfold cnt.
    pose proof (count_in_circle_range pow (drawn_pairs g (Z.to_nat (2 ^ j)))) as H.
    rewrite drawn_pairs_length in H. lia. }
  assert (Hfr : forall gn,
    map (task_fraction pow (2 ^ j) gn) (seq 0 (Z.to_nat N))
    = dyadics (- j) (map cnt (map gn (seq 0 (Z.to_nat N))))).
  { intros gn. unfold dyadics. rewrite !map_map. apply map_ext. intros i.
    unfold task_fraction. fold (cnt (gn i)). apply ratio_pow2; [lia | apply Hcnt]. }
  rewrite !Hfr.
  apply process_dyadics_Permutation.
  - lia.
  - apply Forall_forall. intros n Hn. apply in_map_iff in Hn.
    destruct Hn as (g & <- & _). apply Hcnt.
  - pose proof (total_bound (map cnt (map gen (seq 0 (Z.to_nat N)))) (2 ^ j)
                  ltac:(lia)) as Hb.
    rewrite !length_map, length_seq, Z2Nat.id in Hb by lia.
    assert (Forall (fun n => 0 <= n <= 2 ^ j)
                   (map cnt (map gen (seq 0 (Z.to_nat N))))).
    { apply Forall_forall. intros n Hn. apply in_map_iff in Hn.
      destruct Hn as (g & <- & _). apply Hcnt. }
    specialize (Hb H). lia.
  - apply Permutation_map. exact Hperm.
Qed.

Lemma get_result_task_order_witness :
  get_result square 3 (2 ^ 1)
    (fun i => {| tape := fun k => if (k <? 2)%nat then one else zero;
                 cursor := i |})
  = get_result square 3 (2 ^ 1)
      (fun i => {| tape := fun k => if (k <? 2)%nat then one else zero;
                   cursor := 2 - i |}).
Proof.
  apply (get_result_task_order square 3 1); try lia.
  change (Z.to_nat 3) with 3%nat. cbn [seq map Nat.sub].
  apply (Permutation_rev
           [ {| tape := fun k => if (k <? 2)%nat then one else zero; cursor := 0 |};
             {| tape := fun k => if (k <? 2)%nat then one else zero; cursor := 1 |};
             {| tape := fun k => if (k <? 2)%nat then one else zero; cursor := 2 |} ]).
Defined.

(** X6: with a power of two for the trial count the fraction is exact.  For
    [2^j] trials, [j <= 52], a run that counts [c > 0] pairs in the circle
    returns the float of mantissa [m] and exponent [e] with
    [m * 2^e = c / 2^j], nothing rounded away. *)
Theorem randomize_points_power_of_two pow j data g :
  0 <= j <= 52 ->
  0 < count_in_circle pow (drawn_pairs g (Z.to_nat (2 ^ j))) ->
  exists m e,
    fst (randomize_points pow (2 ^ j) data g) = Ok (VFloat (S754_finite false m e)) /\
    e <= - j /\
    Zpos m = count_in_circle pow (drawn_pairs g (Z.to_nat (2 ^ j))) * 2 ^ (- j - e).
Proof.
  intros Hj Hc.
  pose proof (pow2_pos j ltac:(lia)) as HT.
  rewrite randomize_points_run by assumption. cbn [fst].
  set (c := count_in_circle pow (drawn_pairs g (Z.to_nat (2 ^ j)))) in *.
  assert (Hc2 : 0 <= c <= 2 ^ j).
  { pose proof (count_in_circle_range pow (drawn_pairs g (Z.to_nat (2 ^ j)))) as H.
    rewrite drawn_pairs_length in H. fold c in H. lia. }
  pose proof (Z.pow_le_mono_r 2 j 52 ltac:(lia) ltac:(lia)) as H52.
  change (2 ^ 52) with 4503599627370496 in H52.
  rewrite ratio_pow2 by lia.
  destruct (dyadic_finite c (- j) ltac:(lia) ltac:(lia)) as (-> & _ & Hm & He).
  eexists _, _. split; [reflexivity |]. split; assumption.
Qed.

Lemma randomize_points_power_of_two_witness :
  exists m e,
    fst (randomize_points square (2 ^ 2) VNone halves)
    = Ok (VFloat (S754_finite false m e)) /\
    e <= - 2 /\
    Zpos m = count_in_circle square (drawn_pairs halves (Z.to_nat (2 ^ 2)))
             * 2 ^ (- 2 - e).
Proof.
  apply (randomize_points_power_of_two square 2 VNone halves).
  - lia.
  - vm_compute. reflexivity.
Defined.

(** X7: with [MAP_INSTANCES = 0] the reducer raises [ZeroDivisionError] on
    every sequence of floats, empty or not. *)
Theorem process_in_circle_points_no_instances (xs : list float) :
  process_in_circle_points 0 (map VFloat xs) = Raise ZeroDivisionError.
Proof.
  destruct xs as [| x xs]; [reflexivity |].
  rewrite process_floats. reflexivity.
Qed.

Lemma sum_loop_app l1 : forall acc l2,
  sum_loop acc (l1 ++ l2) = (a <- sum_loop acc l1 ;; sum_loop a l2).
Proof.
  induction l1 as [| v l1 IH]; intros acc l2; [reflexivity |].
  cbn [app sum_loop]. destruct (add acc v) as [a |]; [| reflexivity].
  cbn [bind]. apply IH.
Qed.

Lemma sum_loop_floats_from_zero xs :
  sum_loop (VInt 0) (map VFloat xs)
  = Ok (match xs with [] => VInt 0 | _ :: _ => VFloat (float_sum xs) end).
Proof.
  destruct xs as [| x xs]; [reflexivity | apply sum_loop_from_zero].
Qed.

(** X8: a [None] among the results is not skipped: after any number of
    float results it makes the reducer raise [TypeError], whatever
    follows it. *)
Theorem process_in_circle_points_none N (xs : list float) (rest : list value) :
  process_in_circle_points N (map VFloat xs ++ VNone :: rest) = Raise TypeError.
Proof.
  unfold process_in_circle_points.
  rewrite sum_loop_app, sum_loop_floats_from_zero. cbn [bind sum_loop].
  destruct xs; reflexivity.
Qed.

Lemma fold_zeros k s j :
  below_int s j -> fold_left fadd (repeat zero k) s = s.
Proof.
  intros Hs.
  assert (H : s = zero \/ exists m e, s = S754_finite false m e).
  { destruct Hs as [-> | (m & e & -> & _)]; [left; reflexivity | right; eauto]. }
  clear Hs. induction k as [| k IH]; [reflexivity |].
  cbn [repeat fold_left].
  replace (fadd s zero) with s; [exact IH |].
  destruct H as [-> | (m & e & ->)]; reflexivity.
Qed.

(** X9: a partial result that is missing counts as a sample of 0.0: on
    well-formed fractions between 0 and 1, appending any number of 0.0
    results leaves the reducer's estimate unchanged. *)
Theorem process_in_circle_points_missing_is_zero N xs k :
  0 < N < 2 ^ 53 ->
  Forall (in_interval zero one) xs ->
  Z.of_nat (length xs) < 2 ^ 53 ->
  process_in_circle_points N (map VFloat (xs ++ repeat zero k))
  = process_in_circle_points N (map VFloat xs).
Proof.
  intros HN Hxs Hlen.
  assert (Hsum : float_sum (xs ++ repeat zero k) = float_sum xs).
  { unfold float_sum. rewrite fold_left_app.
    apply fold_zeros with (0 + Z.of_nat (length xs)).
    apply fold_fractions_bound; try assumption; try lia. left; reflexivity. }
  destruct xs as [| x xs].
  - destruct k as [| k]; [reflexivity |].
    cbn [app repeat] in *. rewrite process_floats, Hsum.
    rewrite float_of_int_small by assumption. cbn [bind].
    unfold float_truediv. rewrite dyadic_not_zero by assumption. cbn [bind].
    rewrite process_empty_positive by lia.
    destruct (dyadic_finite N 0 HN ltac:(lia)) as (-> & _). reflexivity.
  - cbn [app] in *. rewrite !process_floats, Hsum. reflexivity.
Qed.

Lemma process_in_circle_points_missing_is_zero_witness :
  process_in_circle_points Notebook.MAP_INSTANCES
    (map VFloat ([ratio 1 10; ratio 2 10] ++ repeat zero 98))
  = process_in_circle_points Notebook.MAP_INSTANCES
      (map VFloat [ratio 1 10; ratio 2 10]).
Proof.
  apply (process_in_circle_points_missing_is_zero Notebook.MAP_INSTANCES
           [ratio 1 10; ratio 2 10] 98).
  - unfold Notebook.MAP_INSTANCES. lia.
  - repeat constructor.
  - cbn [length]. lia.
Defined.

(** ** [__init__] and [__str__] *)

Lemma group_digits_strip ds : forall k,
  Forall (fun c => is_comma c = false) ds ->
  filter (fun c => negb (is_comma c)) (group_digits ds k) = ds.
Proof.
  induction ds as [| d rest IH]; intros k Hds; [reflexivity |].
  inversion Hds as [| ? ? Hd Hrest]; subst.
  destruct k as [| [| [| [| k]]]]; cbn [group_digits filter];
    try (change (is_comma ",") with true; cbn [negb]);
    rewrite Hd; cbn [negb]; rewrite IH by assumption; reflexivity.
Qed.

Lemma digits_no_comma_nonempty u :
  Forall (fun c => is_comma c = false)
         (list_ascii_of_string (NilEmpty.string_of_uint u)).
Proof.
  induction u; cbn [NilEmpty.string_of_uint list_ascii_of_string];
    constructor; (reflexivity || assumption).
Qed.

Lemma digits_no_comma u :
  Forall (fun c => is_comma c = false)
         (list_ascii_of_string (NilZero.string_of_uint u)).
Proof.
  destruct u; try apply digits_no_comma_nonempty.
  repeat constructor.
Qed.

Lemma remove_commas_thousands s :
  Forall (fun c => is_comma c = false) (list_ascii_of_string s) ->
  remove_commas (thousands s) = s.
Proof.
  intros Hs. unfold remove_commas, thousands.
  rewrite list_ascii_of_string_of_list_ascii, filter_rev.
  rewrite group_digits_strip by (apply Forall_rev; assumption).
  rewrite rev_involutive. apply string_of_list_ascii_of_string.
Qed.

Lemma remove_commas_sign s :
  remove_commas (String "-" s) = String "-" (remove_commas s).
Proof. reflexivity. Qed.

Lemma format_comma_strip n :
  remove_commas (format_comma n) = NilZero.string_of_int (Z.to_int n).
Proof.
  unfold format_comma. destruct (Z.to_int n) as [u | u].
  - apply remove_commas_thousands, digits_no_comma.
  - rewrite remove_commas_sign. cbn [NilZero.string_of_int]. f_equal.
    apply remove_commas_thousands, digits_no_comma.
Qed.

Lemma to_int_not_nil n :
  Z.to_int n <> Decimal.Pos Decimal.Nil /\ Z.to_int n <> Decimal.Neg Decimal.Nil.
Proof.
  destruct n as [| p | p]; cbn [Z.to_int]; split; try discriminate;
    intros [= H]; exact (Unsigned.to_uint_nonnil p H).
Qed.

Lemma int_of_grouped_format n : int_of_grouped (format_comma n) = Some n.
Proof.
  unfold int_of_grouped. rewrite format_comma_strip.
  destruct (to_int_not_nil n) as [H1 H2].
  rewrite NilZero.isi by assumption. cbn [option_map].
  rewrite DecimalZ.of_to. reflexivity.
Qed.

(** X10: the line [__str__] prints is ["Total Randomize Points: "] followed
    by a grouped numeral that reads back, commas dropped, as the total
    [MAP_INSTANCES * randomize_per_map] that [__init__] stored. *)
Theorem str_reports_total N T :
  exists numeral,
    __str__ N T (__init__ N T)
    = ("Total Randomize Points: " ++ numeral)%string /\
    int_of_grouped numeral = Some (total_randomize_points (__init__ N T)).
Proof.
  exists (format_comma (T * N)). split; [reflexivity |].
  cbn [__init__ total_randomize_points].
  rewrite int_of_grouped_format. f_equal. lia.
Qed.

Lemma group_digits_comma ds : forall k i,
  (k <= 3)%nat ->
  Forall (fun c => is_comma c = false) ds ->
  (i < List.length (group_digits ds k))%nat ->
  (is_comma (nth i (group_digits ds k) "0"%char) = true
   <-> (Z.of_nat i + Z.of_nat k) mod 4 = 3).
Proof.
  induction ds as [| d rest IH]; intros k i Hk Hds Hi.
  - cbn [group_digits List.length] in Hi. lia.
  - inversion Hds as [| ? ? Hd Hrest]; subst.
    destruct k as [| [| [| [| k]]]]; try lia;
      cbn [group_digits List.length] in *.
    + destruct i as [| i]; cbn [nth].
      * rewrite Hd. split; [discriminate | intros H; discriminate H].
      * rewrite (IH 1%nat i) by (assumption || lia).
        replace (Z.of_nat (S i) + Z.of_nat 0) with (Z.of_nat i + Z.of_nat 1)
          by lia. reflexivity.
    + destruct i as [| i]; cbn [nth].
      * rewrite Hd. split; [discriminate | intros H; discriminate H].
      * rewrite (IH 2%nat i) by (assumption || lia).
        replace (Z.of_nat (S i) + Z.of_nat 1) with (Z.of_nat i + Z.of_nat 2)
          by lia. reflexivity.
    + destruct i as [| i]; cbn [nth].
      * rewrite Hd. split; [discriminate | intros H; discriminate H].
      * rewrite (IH 3%nat i) by (assumption || lia).
        replace (Z.of_nat (S i) + Z.of_nat 2) with (Z.of_nat i + Z.of_nat 3)
          by lia. reflexivity.
    + destruct i as [| [| i]]; cbn [nth].
      * split; reflexivity.
      * rewrite Hd. split; [discriminate | intros H; discriminate H].
      * rewrite (IH 1%nat i) by (assumption || lia).
        replace (Z.of_nat (S (S i)) + Z.of_nat 3)
          with (Z.of_nat i + Z.of_nat 1 + 1 * 4) by lia.
        rewrite Z.mod_add by lia. reflexivity.
Qed.

Lemma group_digits_nonempty ds k : ds <> [] -> group_digits ds k <> [].
Proof.
  destruct ds as [| d rest]; [congruence |]. intros _.
  destruct k as [| [| [| [| k]]]]; discriminate.
Qed.

Lemma last_cons_nonempty {A} (x : A) l d : l <> [] -> last (x :: l) d = last l d.
Proof. destruct l; [congruence | reflexivity]. Qed.

Lemma group_digits_last ds : forall k,
  ds <> [] -> Forall (fun c => is_comma c = false) ds ->
  is_comma (last (group_digits ds k) "0"%char) = false.
Proof.
  induction ds as [| d rest IH]; intros k Hne Hds; [congruence |].
  inversion Hds as [| ? ? Hd Hrest]; subst.
  destruct rest as [| d' rest'].
  - destruct k as [| [| [| [| k]]]]; exact Hd.
  - assert (Hr : d' :: rest' <> []) by discriminate.
    remember (d' :: rest') as r eqn:Er.
    destruct k as [| [| [| [| k]]]]; cbn [group_digits];
      repeat (rewrite last_cons_nonempty
                by (discriminate || apply group_digits_nonempty; exact Hr));
      apply IH; assumption.
Qed.

Lemma digits_nonempty u : list_ascii_of_string (NilZero.string_of_uint u) <> [].
Proof. destruct u; discriminate. Qed.

(** X11: the numeral is grouped by three.  For a total that is not negative,
    counting the characters of [format(n, ",")] from the right, those at
    positions 3, 7, 11, ... are commas and no others are, and the numeral
    does not begin with a comma. *)
Theorem format_comma_groups n :
  0 <= n ->
  is_comma (last (rev (list_ascii_of_string (format_comma n))) "0"%char) = false /\
  forall i, (i < List.length (rev (list_ascii_of_string (format_comma n))))%nat ->
    (is_comma (nth i (rev (list_ascii_of_string (format_comma n))) "0"%char) = true
     <-> Z.of_nat i mod 4 = 3).
Proof.
  intros Hn. unfold format_comma.
  destruct (Z.to_int n) as [u | u] eqn:Eu;
    [| destruct n; try lia; discriminate Eu].
  unfold thousands.
  rewrite list_ascii_of_string_of_list_ascii, rev_involutive.
  pose proof (digits_no_comma u) as Hd. apply Forall_rev in Hd.
  split.
  - apply group_digits_last; [| assumption].
    intros H. apply (f_equal (@rev ascii)) in H.
    rewrite rev_involutive in H. exact (digits_nonempty u H).
  - intros i Hi. rewrite group_digits_comma by (assumption || lia).
    rewrite Z.add_0_r. reflexivity.
Qed.

Lemma format_comma_groups_witness :
  is_comma (nth 3 (rev (list_ascii_of_string (format_comma 1000000000)))
              "0"%char) = true.
Proof.
  apply (proj2 (format_comma_groups 1000000000 ltac:(lia)) 3%nat).
  - vm_compute. lia.
  - reflexivity.
Defined.

Example str_notebook :
  __str__ 100 10000000 (__init__ 100 10000000)
  = "Total Randomize Points: 1,000,000,000"%string.
Proof. vm_compute. reflexivity. Qed.

Example format_comma_examples :
  format_comma 0 = "0"%string /\ format_comma 999 = "999"%string /\
  format_comma 1000 = "1,000"%string /\
  format_comma (-1234567) = "-1,234,567"%string.
Proof. vm_compute. repeat split. Qed.

(** ** What the job draws, and its extremes *)

Lemma numbers_drawn_run pow T data g :
  numbers_drawn pow T data g = (2 * Z.to_nat T)%nat.
Proof.
  unfold numbers_drawn. rewrite randomize_points_unfold. cbn [snd cursor]. lia.
Qed.

Lemma list_sum_constant {A} (f : A -> nat) c l :
  (forall a, f a = c) -> list_sum (map f l) = (List.length l * c)%nat.
Proof.
  intros Hf. induction l as [| a l IH]; [reflexivity |].
  cbn [map List.length].
  change (list_sum (f a :: map f l)) with (f a + list_sum (map f l))%nat.
  rewrite Hf, IH. lia.
Qed.

(** X12: the total [__init__] stores is the number of points the job
    samples: with [MAP_INSTANCES] and [randomize_per_map] not negative,
    the tasks of one job together draw exactly
    [2 * total_randomize_points] random numbers, two for each point. *)
Theorem job_draws_total_randomize_points pow N T gen :
  0 <= N -> 0 <= T ->
  Z.of_nat (job_numbers_drawn pow N T gen)
  = 2 * total_randomize_points (__init__ N T).
Proof.
  intros HN HT. unfold job_numbers_drawn.
  rewrite (list_sum_constant _ (2 * Z.to_nat T)%nat)
    by (intros i; apply numbers_drawn_run).
  rewrite length_seq. unfold iterdata. rewrite repeat_length.
  cbn [__init__ total_randomize_points]. nia.
Qed.

Lemma job_draws_total_randomize_points_witness :
  Z.of_nat (job_numbers_drawn square 4 3 (fun _ => halves)) = 24.
Proof.
  apply (job_draws_total_randomize_points square 4 3 (fun _ => halves)); lia.
Defined.

Lemma float_sum_ones n :
  (0 < n)%nat -> Z.of_nat n < 2 ^ 53 ->
  float_sum (repeat one n) = dyadic (Z.of_nat n) 0.
Proof.
  intros Hn Hsmall.
  replace (repeat one n) with (dyadics 0 (repeat 1 n))
    by (unfold dyadics; rewrite map_repeat; reflexivity).
  rewrite float_sum_dyadics; rewrite ?total_repeat; try lia.
  - f_equal. lia.
  - apply Forall_forall. intros x Hx. apply repeat_spec in Hx. lia.
Qed.

Lemma process_all_ones N :
  0 < N < 2 ^ 53 ->
  process_in_circle_points N (map VFloat (repeat one (Z.to_nat N)))
  = Ok (VFloat four).
Proof.
  intros HN.
  pose proof (float_sum_ones (Z.to_nat N) ltac:(lia) ltac:(lia)) as Hs.
  rewrite Z2Nat.id in Hs by lia.
  destruct (Z.to_nat N) as [| k] eqn:Ek; [lia |]. cbn [repeat] in *.
  rewrite process_floats, float_of_int_small, Hs by assumption. cbn [bind].
  unfold float_truediv. rewrite dyadic_not_zero by assumption. cbn [bind].
  unfold fdiv. replace N with (N * 1) at 1 by lia.
  rewrite div_dyadic by lia. reflexivity.
Qed.

Lemma process_all_zeros N n :
  0 < N < 2 ^ 53 ->
  process_in_circle_points N (map VFloat (repeat zero n)) = Ok (VFloat zero).
Proof.
  intros HN.
  assert (Hs : float_sum (repeat zero n) = zero)
    by (apply (fold_zeros n zero 0); left; reflexivity).
  destruct n as [| n]; [apply process_empty_positive; lia |].
  cbn [repeat] in *.
  rewrite process_floats, float_of_int_small, Hs by assumption. cbn [bind].
  unfold float_truediv. rewrite dyadic_not_zero by assumption. cbn [bind].
  destruct (dyadic_finite N 0 HN ltac:(lia)) as (-> & _). reflexivity.
Qed.

Lemma map_constant {A B} (f : A -> B) c l :
  (forall a, In a l -> f a = c) -> map f l = repeat c (List.length l).
Proof.
  induction l as [| a l IH]; intros H; [reflexivity |].
  cbn [map List.length repeat]. rewrite H by (left; reflexivity).
  rewrite IH by (intros b Hb; apply H; right; exact Hb). reflexivity.
Qed.

(** X13: the extremes of the whole job are exact.  With a positive trial
    count and [0 < MAP_INSTANCES < 2^53], if every pair drawn by every
    task passes the in-circle test the estimate is exactly 4.0, and if
    none passes it is exactly 0.0. *)
Theorem get_result_extremes pow N T gen :
  0 < N < 2 ^ 53 -> 0 < T ->
  ((forall i, (i < Z.to_nat N)%nat ->
      Forall (fun p => in_circle_test pow (fst p) (snd p) = true)
             (drawn_pairs (gen i) (Z.to_nat T))) ->
   get_result pow N T gen = Ok (VFloat four)) /\
  ((forall i, (i < Z.to_nat N)%nat ->
      Forall (fun p => in_circle_test pow (fst p) (snd p) = false)
             (drawn_pairs (gen i) (Z.to_nat T))) ->
   get_result pow N T gen = Ok (VFloat zero)).
Proof.
  intros HN HT. unfold get_result, map_reduce.
  rewrite map_tasks_run by assumption. cbn [bind].
  unfold iterdata. rewrite repeat_length.
  split; intros H.
  - rewrite (map_constant (task_fraction pow T gen) one).
    + rewrite length_seq. apply process_all_ones; assumption.
    + intros i Hi. apply in_seq in Hi. unfold task_fraction.
      rewrite count_in_circle_all by (apply H; lia).
      rewrite drawn_pairs_length, Z2Nat.id by lia.
      apply ratio_same; assumption.
  - rewrite (map_constant (task_fraction pow T gen) zero).
    + apply process_all_zeros; assumption.
    + intros i Hi. apply in_seq in Hi. unfold task_fraction.
      rewrite count_in_circle_none by (apply H; lia).
      apply ratio_zero; assumption.
Qed.

Lemma get_result_extremes_witness :
  get_result square 4 3 (fun _ => halves) = Ok (VFloat four).
Proof.
  apply (get_result_extremes square 4 3 (fun _ => halves)); try lia.
  intros i _. repeat constructor.
Defined.
